(** * Change tracking for file sources (locomote-sh/utils)

    A shallow embedding of the change-tracking module (git-backed and
    filesystem-backed change sources) and of the command runner
    [exec] of [lib/cmds.js], with the properties of the specification
    stated over it.

    Modelling conventions.
    - A JavaScript string is the list of its UTF-16 code units
      ([jsstring]); [String.fromCharCode] may produce units above 255,
      so the 8-bit characters of [Stdlib.Strings] would not do.
    - The objects used as dictionaries ([changes], [active]) are finite
      maps from the names of their own properties to booleans
      ([gmap jsstring bool]); an assignment [o[key] = value] is
      [set_property], which creates no property for [__proto__].
    - The platform ([Buffer.toString], [Path.relative]) and the
      operating system (what a spawned command emits) are parameters.
    - [undefined] is [None].
    - A promise is represented by its final state. *)

From Stdlib Require Import ZArith NArith List Lia Ascii String.
From stdpp Require Import base option list gmap fin_maps.

Local Open Scope N_scope.

(** ** Strings *)

Abbreviation jsstring := (list N).

(** Literals: an ASCII text as a JavaScript string. *)
Definition js (s : string) : jsstring :=
  List.map N_of_ascii (list_ascii_of_string s).

Definition chr_quote : N := 34.      (* 0x22, the double quotation mark *)
Definition chr_backslash : N := 92.
Definition chr_tab : N := 9.
Definition chr_newline : N := 10.

Module JS.

(** [s.length] *)
Definition length (s : jsstring) : Z := Z.of_nat (List.length s).

(** [s.charCodeAt(i)]: [NaN] (here [None]) outside the string. *)
Definition charCodeAt (s : jsstring) (i : Z) : option N :=
  if (i <? 0)%Z then None else nth_error s (Z.to_nat i).

(** Relative index of [slice]: negative positions count from the end,
    everything is clamped to [0 .. len]. *)
Definition rel_index (len i : Z) : Z :=
  if (i <? 0)%Z then Z.max (len + i) 0 else Z.min i len.

(** [s.slice(b, e)] *)
Definition slice (s : jsstring) (b e : Z) : jsstring :=
  let len := length s in
  let from := rel_index len b in
  let to := rel_index len e in
  take (Z.to_nat (to - from)) (drop (Z.to_nat from) s).

(** [s.slice(b)] *)
Definition slice_from (s : jsstring) (b : Z) : jsstring :=
  slice s b (length s).

Definition is_digit (c : N) : bool := (48 <=? c) && (c <=? 57).
Definition is_octal_digit (c : N) : bool := (48 <=? c) && (c <=? 55).

(** Longest prefix of radix-8 digits, accumulated most significant
    first; [seen] records whether a digit was read. *)
Fixpoint parse_octal (s : jsstring) (acc : N) (seen : bool) : option N :=
  match s with
  | c :: s' =>
      if is_octal_digit c then parse_octal s' (8 * acc + (c - 48)) true
      else if seen then Some acc else None
  | [] => if seen then Some acc else None
  end.

(** The white space and line terminators [parseInt] skips. *)
Definition is_white_space (c : N) : bool :=
  existsb (N.eqb c)
    [9; 10; 11; 12; 13; 32; 160; 5760; 8192; 8193; 8194; 8195; 8196; 8197;
     8198; 8199; 8200; 8201; 8202; 8232; 8233; 8239; 8287; 12288; 65279].

Fixpoint skip_white_space (s : jsstring) : jsstring :=
  match s with
  | c :: s' => if is_white_space c then skip_white_space s' else s
  | [] => []
  end.

(** [parseInt(s, 8)]: leading white space is skipped, then one sign is
    taken, then the longest run of octal digits; [None] is [NaN]. *)
Definition parseInt8 (s : jsstring) : option Z :=
  let s := skip_white_space s in
  let signed :=
    match s with
    | c :: s' =>
        if c =? 45 then ((-1)%Z, s')            (* '-' *)
        else if c =? 43 then (1%Z, s')          (* '+' *)
        else (1%Z, s)
    | [] => (1%Z, [])
    end in
  match parse_octal signed.2 0 false with
  | Some n => Some (signed.1 * Z.of_N n)%Z
  | None => None
  end.

(** [String.fromCharCode(x)]: the one-unit string of [ToUint16 x];
    [NaN] converts to 0. *)
Definition fromCharCode (x : option Z) : jsstring :=
  match x with
  | Some n => [Z.to_N (n mod 65536)]
  | None => [0]
  end.

(** [s.split(sep)] for a one-unit separator. *)
Fixpoint split (sep : N) (s : jsstring) : list jsstring :=
  match s with
  | [] => [[]]
  | c :: s' =>
      if c =? sep then [] :: split sep s'
      else match split sep s' with
           | piece :: pieces => (c :: piece) :: pieces
           | [] => [[c]]
           end
  end.

End JS.

(** ** Filename normalisation *)

(** [octetToStr]: an escape sequence [\xxx] to the character it names. *)
Definition octetToStr (octet : jsstring) : jsstring :=
  JS.fromCharCode (JS.parseInt8 (JS.slice_from octet 1)).

(** [s.replace(/\\\d\d\d/g, octetToStr)]: a left-to-right scan; each
    backslash followed by three characters of the class [\d] is replaced
    by the result of the callback and the scan resumes after the match. *)
Fixpoint replace_octets (s : jsstring) : jsstring :=
  match s with
  | [] => []
  | c :: s' =>
      match s' with
      | d1 :: d2 :: d3 :: rest =>
          if (c =? chr_backslash) && JS.is_digit d1 && JS.is_digit d2
             && JS.is_digit d3
          then octetToStr [c; d1; d2; d3] ++ replace_octets rest
          else c :: replace_octets s'
      | _ => c :: replace_octets s'
      end
  end.

Definition correctExtendedChars (s : jsstring) : jsstring :=
  if bool_decide (JS.charCodeAt s 0 = Some chr_quote
                  ∧ JS.charCodeAt s (JS.length s - 1) = Some chr_quote)
  then replace_octets (JS.slice s 1 (-1))
  else s.

(** ** The command runner ([lib/cmds.js]) *)

(** A [Buffer] is a sequence of bytes. *)
Abbreviation Buffer := (list Byte.byte).

(** What the module takes from the platform: the decoding of a buffer
    into a string ([Buffer.prototype.toString], UTF-8) and
    [Path.relative] of Node's [path] module. *)
Class Runtime := {
  Buffer_toString : Buffer → jsstring;
  Path_relative : jsstring → jsstring → jsstring
}.

(** Why a promise was rejected. *)
Inductive failure :=
  | StderrText (text : jsstring)     (* [reject( _stderr )] *)
  | SpawnError (err : jsstring)      (* the child's ['error'] event *)
  | TypeError.                       (* a property read on [undefined] *)

Inductive promise (A : Type) :=
  | Pending
  | Fulfilled (value : A)
  | Rejected (reason : failure).
Arguments Pending {A}.
Arguments Fulfilled {A} value.
Arguments Rejected {A} reason.

(** Events a spawned child process emits, in order of arrival. *)
Inductive event :=
  | StdoutData (data : Buffer)
  | StderrData (data : Buffer)
  | ProcError (err : jsstring)
  | Close (code : option Z).

(** The operating system as [spawn] sees it: command, arguments and
    working directory give the events of the child. *)
Definition world := jsstring → list jsstring → option jsstring → list event.

Module Cmds.
Section Exec.
Context `{rt : Runtime}.

(** The closure of one [exec] call: the two chunk arrays and the
    promise under construction. *)
Record proc := {
  stdout : list Buffer;
  stderr : list Buffer;
  outcome : promise (list jsstring)
}.

Definition spawned : proc :=
  {| stdout := []; stderr := []; outcome := Pending |}.

(** [resolve] and [reject] only act on a pending promise. *)
Definition settle {A} (p result : promise A) : promise A :=
  match p with
  | Pending => result
  | _ => p
  end.

Definition on_close (st : proc) : promise (list jsstring) :=
  if (0 <? List.length (stderr st))%nat
  then Rejected (StderrText (Buffer_toString (concat (stderr st))))
  else Fulfilled (JS.split chr_newline (Buffer_toString (concat (stdout st)))).

Definition handle (st : proc) (ev : event) : proc :=
  match ev with
  | StdoutData data =>
      {| stdout := stdout st ++ [data]; stderr := stderr st;
         outcome := outcome st |}
  | StderrData data =>
      {| stdout := stdout st; stderr := stderr st ++ [data];
         outcome := outcome st |}
  | ProcError err =>
      {| stdout := stdout st; stderr := stderr st;
         outcome := settle (outcome st) (Rejected (SpawnError err)) |}
  | Close _ =>
      {| stdout := stdout st; stderr := stderr st;
         outcome := settle (outcome st) (on_close st) |}
  end.

Definition exec (w : world) (cmd : jsstring) (args : list jsstring)
    (cwd : option jsstring) : promise (list jsstring) :=
  outcome (foldl handle spawned (w cmd args cwd)).

End Exec.
End Cmds.

(** ** Objects used as dictionaries *)

Abbreviation obj := (gmap jsstring bool).

(** [o[key] = value] on an object made by [{}]. The name [__proto__]
    is the one that differs: unless the object has it as a property of
    its own, the assignment reaches the setter of [Object.prototype],
    which ignores a boolean, and no property is created. *)
Definition set_property (o : obj) (key : jsstring) (value : bool) : obj :=
  if bool_decide (key = js "__proto__" ∧ o !! key = None) then o
  else <[key := value]> o.

(** A value used as a property name: [undefined] names the property
    ["undefined"]. *)
Definition ToPropertyKey (v : option jsstring) : jsstring :=
  default (js "undefined") v.

(** [Object.assign(target, source)]: every own property of [source] is
    assigned to [target]. *)
Definition Object_assign (target source : obj) : obj :=
  map_fold (λ key value tgt, set_property tgt key value) target source.

(** [entry.length > 0] *)
Definition nonempty (s : jsstring) : Prop := (0 < JS.length s)%Z.

#[global] Instance nonempty_dec s : Decision (nonempty s).
Proof. unfold nonempty. apply _. Defined.

(** ** The git change source *)

Module GitSource.
Section Git.
Context `{rt : Runtime}.
Variable path branch : jsstring.

(** The body of the [forEach] callback of [getChangesSince]; a line
    without a second field leaves [from] undefined, and
    [correctExtendedChars] then throws on [s.charCodeAt]. *)
Definition diff_entry (changes : obj) (entry : jsstring) : failure + obj :=
  let fields := JS.split chr_tab entry in
  let code := default [] (fields !! 0%nat) in
  let from := fields !! 1%nat in
  let to := fields !! 2%nat in
  match from with
  | None => inl TypeError
  | Some from =>
      let from := correctExtendedChars from in
      if bool_decide (code !! 0%nat = Some 82)          (* code[0] === 'R' *)
      then
        let changes := set_property changes from false in
        inr (set_property changes (ToPropertyKey to) true)
      else
        let active := negb (bool_decide (code = js "D")) in
        inr (set_property changes from active)
  end.

(** [forEach] stops at the first exception. *)
Fixpoint diff_entries (entries : list jsstring) (changes : obj)
    : failure + obj :=
  match entries with
  | [] => inr changes
  | entry :: rest =>
      match diff_entry changes entry with
      | inl err => inl err
      | inr changes' => diff_entries rest changes'
      end
  end.

Definition getChangesSince (w : world) (since : jsstring) : promise obj :=
  let args := [js "diff"; js "--name-status"; since; branch] in
  match Cmds.exec w (js "git") args (Some path) with
  | Pending => Pending
  | Rejected reason => Rejected reason
  | Fulfilled entries =>
      match diff_entries (filter nonempty entries) ∅ with
      | inl err => Rejected err
      | inr changes => Fulfilled changes
      end
  end.

Definition mark_active (changes : obj) (file : jsstring) : obj :=
  set_property changes file true.

Definition listActive (w : world) : promise obj :=
  let args := [js "ls-tree"; js "-r"; js "--name-only"; js "--full-tree";
               branch] in
  match Cmds.exec w (js "git") args (Some path) with
  | Pending => Pending
  | Rejected reason => Rejected reason
  | Fulfilled files =>
      Fulfilled
        (foldl mark_active ∅
           (correctExtendedChars <$> filter nonempty files))
  end.

(** [since] is optional; an empty string is as good as none. *)
Definition getChanges (w : world) (since : option jsstring) : promise obj :=
  match since with
  | Some (c :: s) => getChangesSince w (c :: s)
  | _ => listActive w
  end.

End Git.
End GitSource.

(** ** The filesystem change source *)

Module FileSource.
Section File.
Context `{rt : Runtime}.
Variable path : jsstring.

Definition mark_active (active : obj) (file : jsstring) : obj :=
  set_property active file true.

Definition listActive (w : world) : promise obj :=
  match Cmds.exec w (js "find") [path; js "-type"; js "f"] None with
  | Pending => Pending
  | Rejected reason => Rejected reason
  | Fulfilled files =>
      Fulfilled
        (foldl mark_active ∅
           (Path_relative path <$> filter nonempty files))
  end.

(** One round of the [for ... in] loop of [getChanges]: the status is
    read from the object being rewritten. *)
Definition prepare_entry (path : jsstring) (_ : bool) (changes : obj) : obj :=
  match changes !! path with
  | Some false => delete path changes
  | Some true => <[path := false]> changes
  | None => changes
  end.

(** The whole loop, over the properties the object has when it starts. *)
Definition prepare (changes : obj) : obj :=
  map_fold prepare_entry changes changes.

(** [getChanges]: the promise it returns and the [changes] object of
    the closure afterwards. The value of a fulfilled promise is that
    very object. The loop runs before the function first suspends, so
    its writes stay when [listActive] rejects. *)
Definition getChanges (w : world) (changes : obj) : promise obj * obj :=
  let changes := prepare changes in
  match listActive w with
  | Pending => (Pending, changes)
  | Rejected reason => (Rejected reason, changes)
  | Fulfilled active =>
      let changes := Object_assign changes active in
      (Fulfilled changes, changes)
  end.

(** Successive calls on one source, each in the world of its time;
    the results are listed oldest first. *)
Fixpoint queries (ws : list world) (changes : obj)
    : list (promise obj) * obj :=
  match ws with
  | [] => ([], changes)
  | w :: ws' =>
      let '(result, changes') := getChanges w changes in
      let '(results, final) := queries ws' changes' in
      (result :: results, final)
  end.

End File.
End FileSource.

(** ** Vocabulary of the statements *)

(** [pieces.join(sep)], the inverse of [split] on pieces free of [sep]. *)
Fixpoint join (sep : N) (pieces : list jsstring) : jsstring :=
  match pieces with
  | [] => []
  | [piece] => piece
  | piece :: rest => piece ++ sep :: join sep rest
  end.

(** A line of [git diff --name-status]: tab-separated fields. *)
Definition diff_line (fields : list jsstring) : jsstring := join chr_tab fields.

(** A name the way git quotes it. *)
Definition quoted (s : jsstring) : jsstring := chr_quote :: s ++ [chr_quote].

(** Data events and the bytes they carry. *)
Definition is_data (ev : event) : Prop :=
  match ev with
  | StdoutData _ | StderrData _ => True
  | _ => False
  end.

Definition carries_bytes (ev : event) : Prop :=
  match ev with
  | StdoutData data | StderrData data => data ≠ []
  | _ => False
  end.

Definition stdout_chunks (evs : list event) : list Buffer :=
  omap (λ ev, match ev with StdoutData data => Some data | _ => None end) evs.

Definition stderr_chunks (evs : list event) : list Buffer :=
  omap (λ ev, match ev with StderrData data => Some data | _ => None end) evs.

(** What a scan of the filesystem source enumerates in world [w]: the
    relative paths of the lines [find] printed, if it succeeded. *)
Definition enumerated `{rt : Runtime} (path : jsstring) (w : world)
    : option (list jsstring) :=
  match Cmds.exec w (js "find") [path; js "-type"; js "f"] None with
  | Fulfilled files => Some (Path_relative path <$> filter nonempty files)
  | _ => None
  end.

(** The second component of [FileSource.queries]: the [tracked] map
    after the calls. *)
Definition tracked_after `{rt : Runtime} (path : jsstring) (ws : list world)
    (changes : obj) : obj :=
  (FileSource.queries path ws changes).2.

(** The normalisation as the specification words it: a backslash
    followed by three octal digits becomes the unit of that octal
    value; nothing else is touched. Kept apart from
    [replace_octets], which is the code. *)
Fixpoint spec_decode_escapes (s : jsstring) : jsstring :=
  match s with
  | [] => []
  | c :: s' =>
      match s' with
      | d1 :: d2 :: d3 :: rest =>
          if (c =? chr_backslash) && JS.is_octal_digit d1
             && JS.is_octal_digit d2 && JS.is_octal_digit d3
          then (64 * (d1 - 48) + 8 * (d2 - 48) + (d3 - 48))
                 :: spec_decode_escapes rest
          else c :: spec_decode_escapes s'
      | _ => c :: spec_decode_escapes s'
      end
  end.

(** Along the scan of [replace_octets], every match of the pattern
    consists of octal digits. *)
Fixpoint escapes_are_octal (s : jsstring) : bool :=
  match s with
  | [] => true
  | c :: s' =>
      match s' with
      | d1 :: d2 :: d3 :: rest =>
          if (c =? chr_backslash) && JS.is_digit d1 && JS.is_digit d2
             && JS.is_digit d3
          then JS.is_octal_digit d1 && JS.is_octal_digit d2
               && JS.is_octal_digit d3 && escapes_are_octal rest
          else escapes_are_octal s'
      | _ => escapes_are_octal s'
      end
  end.

Definition spec_normalize (s : jsstring) : jsstring :=
  match s with
  | first :: rest =>
      if (first =? chr_quote) && bool_decide (last s = Some chr_quote)
      then spec_decode_escapes (JS.slice s 1 (-1))
      else s
  | [] => s
  end.

(** ** The other commands of [lib/cmds.js] *)

(** What [spawn] was asked to run. *)
Record invocation := {
  inv_cmd : jsstring;
  inv_args : list jsstring;
  inv_cwd : option jsstring
}.

(** What [FS.stat] tells about a file. *)
Record stats := { isDirectory : bool }.

(** The machine a sequence of commands runs on: the worlds the next
    spawns will meet (one per spawn; a spawn past the end never hears
    from its child), the commands spawned so far, oldest first, and
    what [FS.stat] answers ([None]: it fails). *)
Record os := {
  script : list world;
  commands : list invocation;
  fs_stat : jsstring → option stats
}.

(** A value thrown by a [throw] statement or by the platform. *)
Inductive thrown :=
  | ErrorMsg (message : jsstring)     (* [new Error( message )] *)
  | ThrownTypeError.

(** How a synchronous call ends. *)
Inductive completion (A : Type) :=
  | Throws (error : thrown)
  | Returns (value : A).
Arguments Throws {A} error.
Arguments Returns {A} value.

Module Commands.
Section Commands.
Context `{rt : Runtime}.

(** [exec] on a machine: the child lives in the next world of the
    script, and the spawn is recorded. *)
Definition exec (cmd : jsstring) (args : list jsstring)
    (cwd : option jsstring) (σ : os) : promise (list jsstring) * os :=
  let spawn := {| inv_cmd := cmd; inv_args := args; inv_cwd := cwd |} in
  match script σ with
  | w :: later =>
      (Cmds.exec w cmd args cwd,
       {| script := later; commands := commands σ ++ [spawn];
          fs_stat := fs_stat σ |})
  | [] =>
      (Pending,
       {| script := []; commands := commands σ ++ [spawn];
          fs_stat := fs_stat σ |})
  end.

(** [path == '.' || path == '/'] *)
Definition is_root (path : jsstring) : bool :=
  bool_decide (path = js ".") || bool_decide (path = js "/").

(** [exists]: the argument [isDir] by its truth value. The promise is
    always fulfilled. *)
Definition exists_ (path : jsstring) (isDir : bool) (σ : os) : promise bool :=
  match fs_stat σ path with
  | Some st => Fulfilled (true && (negb isDir || isDirectory st))
  | None => Fulfilled false
  end.

(** [rmdirs]: the argument is an array or a single path. *)
Definition rmdirs (paths : jsstring + list jsstring) (σ : os)
    : completion (promise (list jsstring)) * os :=
  let paths := match paths with inl path => [path] | inr paths => paths end in
  if existsb is_root paths
  then (Throws (ErrorMsg (js "rm root path panic")), σ)
  else
    let '(p, σ') := exec (js "rm") ([js "-Rf"] ++ paths) None σ in
    (Returns p, σ').

Definition rm (path : jsstring) (σ : os)
    : completion (promise (list jsstring)) * os :=
  if is_root path
  then (Throws (ErrorMsg (js "rm root path panic")), σ)
  else
    let '(p, σ') := exec (js "rm") [js "-Rf"; path] None σ in
    (Returns p, σ').

(** The callback of [reduce] in [findrm]. *)
Definition name_clause (args : list jsstring) (pattern : jsstring)
    : list jsstring :=
  (if (0 <? List.length args)%nat then args ++ [js "-or"] else args)
    ++ [js "-name"; pattern].

Definition findrm_tail : list jsstring :=
  [js "-d"; js "1"; js "-exec"; js "rm"; js "-Rf"; js "{}"; js ";"].

Definition findrm (patterns : list jsstring) (σ : os)
    : promise (list jsstring) * os :=
  let args :=
    foldl name_clause []
      (List.filter (λ p, negb (bool_decide (p = js "/"))
                         && negb (bool_decide (p = js "."))) patterns) in
  let args := args ++ findrm_tail in
  exec (js "find") args None σ.

Definition mkdir (path : jsstring) (σ : os) : promise (list jsstring) * os :=
  exec (js "mkdir") [js "-p"; path] None σ.

Definition find (dir filename : jsstring) (σ : os)
    : promise (list jsstring) * os :=
  exec (js "find") [dir; js "-name"; filename] None σ.

Definition cp (from to : jsstring) (σ : os) : promise (list jsstring) * os :=
  exec (js "cp") [js "-R"; from; to] None σ.

(** The [catch] block of [ensureDir]: [await mkdir( path )], after
    which the function returns [undefined] ([None]). *)
Definition ensureDir_catch (path : jsstring) (σ : os)
    : promise (option bool) * os :=
  let '(made, σ') := mkdir path σ in
  match made with
  | Pending => (Pending, σ')
  | Rejected reason => (Rejected reason, σ')
  | Fulfilled _ => (Fulfilled None, σ')
  end.

(** [ensureDir]. Whatever is thrown or rejected inside the [try]
    block, by [_stat], by [rm] or by [mkdir], lands in the [catch]
    block; a promise that never settles suspends the function for
    good. *)
Definition ensureDir (path : jsstring) (σ : os) : promise (option bool) * os :=
  match fs_stat σ path with
  | None => ensureDir_catch path σ
  | Some st =>
      if isDirectory st then (Fulfilled (Some true), σ)
      else
        match rm path σ with
        | (Throws _, σ1) => ensureDir_catch path σ1
        | (Returns removed, σ1) =>
            match removed with
            | Pending => (Pending, σ1)
            | Rejected _ => ensureDir_catch path σ1
            | Fulfilled _ =>
                let '(made, σ2) := mkdir path σ1 in
                match made with
                | Pending => (Pending, σ2)
                | Rejected _ => ensureDir_catch path σ2
                | Fulfilled _ => (Fulfilled None, σ2)
                end
            end
        end
  end.

End Commands.
End Commands.

(** ** Fingerprints ([lib/utils.js]) *)

Module Utils.
Section Fingerprint.

(** Values that are not strings, their JSON text ([JSON.stringify],
    which gives [undefined] for some) and the keyed hash
    [Crypto.createHmac('sha256', key).digest('hex')] come from the
    platform. *)
Context {V : Type}.
Variable JSON_stringify : V → option jsstring.
Variable hmac_sha256_hex : jsstring → jsstring.

Definition DefaultFingerprintLength : Z := 10.

(** [s.substring(a, b)]: both ends are clamped to [0 .. s.length] and
    swapped if out of order. *)
Definition substring (s : jsstring) (a b : Z) : jsstring :=
  let len := JS.length s in
  let a := Z.min (Z.max a 0) len in
  let b := Z.min (Z.max b 0) len in
  let from := Z.min a b in
  let to := Z.max a b in
  take (Z.to_nat (to - from)) (drop (Z.to_nat from) s).

(** [fingerprint]: [data] is a string ([inl]) or some other value;
    [len] is optional. [createHmac] throws on a key that is
    [undefined]. *)
Definition fingerprint (data : jsstring + V) (len : option Z)
    : completion jsstring :=
  let len := default DefaultFingerprintLength len in
  let str :=
    match data with
    | inl s => Some s
    | inr v => JSON_stringify v
    end in
  match str with
  | Some str => Returns (substring (hmac_sha256_hex str) 0 len)
  | None => Throws ThrownTypeError
  end.

End Fingerprint.
End Utils.

(** The name tests [findrm] builds for the patterns it keeps:
    [-name p0 -or -name p1 -or ...]. *)
Definition name_tests (patterns : list jsstring) : list jsstring :=
  match patterns with
  | [] => []
  | first :: others =>
      [js "-name"; first]
        ++ concat ((λ p, [js "-or"; js "-name"; p]) <$> others)
  end.

Definition rm_invocation (paths : list jsstring) : invocation :=
  {| inv_cmd := js "rm"; inv_args := js "-Rf" :: paths; inv_cwd := None |}.

Definition mkdir_invocation (path : jsstring) : invocation :=
  {| inv_cmd := js "mkdir"; inv_args := [js "-p"; path]; inv_cwd := None |}.

(** A machine whose next spawns meet the worlds [ws]. *)
Definition machine (ws : list world) (stat : jsstring → option stats) : os :=
  {| script := ws; commands := []; fs_stat := stat |}.

(** ** Concrete worlds for the examples *)

(** A runtime that is right on what the examples use: ASCII output,
    and files below the root directory. *)
Definition ascii_runtime : Runtime := {|
  Buffer_toString := λ b, List.map Byte.to_N b;
  Path_relative := λ root file, drop (S (List.length root)) file
|}.

Definition bytes (s : string) : Buffer := list_byte_of_string s.

(** The bytes of a text of units below 256. *)
Definition ascii_bytes (s : jsstring) : Buffer := omap Byte.of_N s.

(** The output of a command that prints [lines], one per line. *)
Definition printed (lines : list jsstring) : Buffer :=
  concat ((λ l, ascii_bytes l ++ [Byte.x0a]) <$> lines).

(** A world where every command prints [lines] and exits cleanly. *)
Definition emits (lines : list jsstring) : world :=
  λ _ _ _, [StdoutData (printed lines); Close (Some 0%Z)].

Definition prints (lines : list string) : world := emits (js <$> lines).

(** A world where every command complains on its error stream. *)
Definition complains (message : string) (code : Z) : world :=
  λ _ _ _, [StderrData (bytes message); Close (Some code)].

(** * Properties *)

(** ** Dictionaries *)

Lemma set_property_other (o : obj) (key : jsstring) (value : bool) :
  key ≠ js "__proto__" → set_property o key value = <[key := value]> o.
Proof.
  intros Hkey. unfold set_property.
  rewrite bool_decide_eq_false_2; [done | by intros [? _]].
Qed.

Lemma set_property_proto (o : obj) (value : bool) :
  o !! js "__proto__" = None → set_property o (js "__proto__") value = o.
Proof. intros Hfree. unfold set_property. by rewrite bool_decide_eq_true_2. Qed.

(** No assignment gives an object a [__proto__] of its own. *)
Lemma set_property_proto_free (o : obj) (key : jsstring) (value : bool) :
  o !! js "__proto__" = None →
  set_property o key value !! js "__proto__" = None.
Proof.
  intros Hfree. destruct (decide (key = js "__proto__")) as [-> | Hkey].
  - by rewrite set_property_proto.
  - rewrite set_property_other by done. by rewrite lookup_insert_ne.
Qed.

Lemma lookup_set_property_eq (o : obj) (key : jsstring) (value : bool) :
  key ≠ js "__proto__" → set_property o key value !! key = Some value.
Proof.
  intros Hkey. rewrite set_property_other by done. apply lookup_insert_eq.
Qed.

Lemma lookup_set_property_ne (o : obj) (key k : jsstring) (value : bool) :
  k ≠ key → set_property o key value !! k = o !! k.
Proof.
  intros Hne. unfold set_property. case_bool_decide; [done |].
  by rewrite lookup_insert_ne.
Qed.

Lemma lookup_Object_assign (target source : obj) (k : jsstring) :
  source !! js "__proto__" = None →
  Object_assign target source !! k = (source ∪ target) !! k.
Proof.
  unfold Object_assign.
  apply (map_fold_weak_ind
           (λ r m, m !! js "__proto__" = None → r !! k = (m ∪ target) !! k)
           (λ key value tgt, set_property tgt key value)).
  - intros _. by rewrite (left_id_L ∅ (∪)).
  - intros i x m r _ IH Hfree.
    assert (i ≠ js "__proto__") as Hi.
    { intros ->. by rewrite lookup_insert_eq in Hfree. }
    rewrite lookup_insert_ne in Hfree by done.
    rewrite set_property_other by done.
    rewrite <- insert_union_l.
    destruct (decide (i = k)) as [-> | Hne].
    + by rewrite !lookup_insert_eq.
    + rewrite !lookup_insert_ne by done. by apply IH.
Qed.

Lemma Object_assign_union (target source : obj) :
  source !! js "__proto__" = None →
  Object_assign target source = source ∪ target.
Proof.
  intros Hfree. apply map_eq. intros k. by apply lookup_Object_assign.
Qed.

Lemma mark_all_proto_free (mark : obj → jsstring → obj)
    (files : list jsstring) (m : obj) :
  (∀ m f, mark m f = set_property m f true) →
  m !! js "__proto__" = None →
  foldl mark m files !! js "__proto__" = None.
Proof.
  intros Hmark. revert m.
  induction files as [| f files IH]; intros m Hfree; [done |].
  simpl. apply IH. rewrite Hmark. by apply set_property_proto_free.
Qed.

Lemma lookup_mark_all (mark : obj → jsstring → obj) (files : list jsstring)
    (m : obj) (k : jsstring) :
  (∀ m f, mark m f = set_property m f true) →
  m !! js "__proto__" = None →
  foldl mark m files !! k =
    if decide (k ∈ files ∧ k ≠ js "__proto__") then Some true else m !! k.
Proof.
  intros Hmark. revert m.
  induction files as [| f files IH]; intros m Hfree.
  - case_decide as Hin; [| done].
    destruct Hin as [Hin _]. by apply elem_of_nil in Hin.
  - change (foldl mark m (f :: files)) with (foldl mark (mark m f) files).
    rewrite IH by (rewrite Hmark; by apply set_property_proto_free).
    rewrite Hmark.
    destruct (decide (k ∈ files ∧ k ≠ js "__proto__")) as [[Hin Hk] | Hnin].
    + rewrite decide_True; [done |]. split; [by right | done].
    + destruct (decide (k = js "__proto__")) as [-> | Hk].
      * rewrite set_property_proto_free by done.
        rewrite decide_False; [by rewrite Hfree | by intros [_ ?]].
      * destruct (decide (k = f)) as [-> | Hne].
        -- rewrite set_property_other by done.
           rewrite lookup_insert_eq, decide_True; [done |].
           split; [by left | done].
        -- assert (set_property m f true !! k = m !! k) as ->.
           { destruct (decide (f = js "__proto__")) as [-> | Hf].
             - by rewrite set_property_proto.
             - rewrite set_property_other by done.
               by rewrite lookup_insert_ne. }
           rewrite decide_False; [done |].
           intros [[? | ?]%elem_of_cons ?]; [done | tauto].
Qed.

Lemma size_mark_all (mark : obj → jsstring → obj) (files : list jsstring) :
  (∀ m f, mark m f = set_property m f true) →
  NoDup files →
  js "__proto__" ∉ files →
  size (foldl mark ∅ files) = List.length files.
Proof.
  intros Hmark.
  induction files as [| f files IH] using rev_ind; intros Hnd Hproto.
  - done.
  - apply NoDup_app in Hnd as (Hnd & Hfresh & _).
    apply not_elem_of_app in Hproto as [Hproto Hf].
    assert (f ≠ js "__proto__") as Hne
      by (intros ->; apply Hf; by left).
    rewrite foldl_app, length_app; simpl.
    rewrite Hmark, set_property_other by done.
    rewrite map_size_insert_None.
    + rewrite IH by done. lia.
    + rewrite (lookup_mark_all mark) by done.
      rewrite decide_False; [done |].
      intros [Hin _]. apply (Hfresh f Hin). by left.
Qed.

(** ** The rewrite loop of the filesystem source *)

(** Invariant of the loop after the properties in [visited] have been
    handled: those hold their new status, the others their old one. *)
Lemma lookup_prepare_fold (changes visited : obj) (k : jsstring) :
  visited ⊆ changes →
  map_fold FileSource.prepare_entry changes visited !! k =
    match visited !! k with
    | Some true => Some false
    | Some false => None
    | None => changes !! k
    end.
Proof.
  revert visited.
  apply (map_fold_weak_ind
           (λ r m, m ⊆ changes →
                   r !! k = match m !! k with
                            | Some true => Some false
                            | Some false => None
                            | None => changes !! k
                            end)
           FileSource.prepare_entry).
  - intros _. by rewrite lookup_empty.
  - intros i x m r Hfresh IH Hsub.
    assert (m ⊆ changes) as Hm.
    { etrans; [apply (insert_subseteq m i x Hfresh) | done]. }
    specialize (IH Hm).
    assert (changes !! i = Some x) as Hi.
    { apply (lookup_weaken (<[i:=x]> m)); [apply lookup_insert_eq | done]. }
    unfold FileSource.prepare_entry.
    destruct (decide (i = k)) as [-> | Hne].
    + rewrite IH, Hfresh, Hi, lookup_insert_eq.
      destruct x.
      * by rewrite lookup_insert_eq.
      * by rewrite lookup_delete_eq.
    + rewrite (lookup_insert_ne m) by done.
      destruct (r !! i) as [[] |].
      * by rewrite lookup_insert_ne.
      * by rewrite lookup_delete_ne.
      * done.
Qed.

Lemma lookup_prepare (changes : obj) (k : jsstring) :
  FileSource.prepare changes !! k =
    match changes !! k with
    | Some true => Some false
    | _ => None
    end.
Proof.
  unfold FileSource.prepare.
  rewrite lookup_prepare_fold by done.
  by destruct (changes !! k) as [[] |].
Qed.

(** ** The command runner *)

Section ExecFacts.
Context `{rt : Runtime}.

Lemma settled_stays (st : Cmds.proc) (evs : list event) :
  Cmds.outcome st ≠ Pending →
  Cmds.outcome (foldl Cmds.handle st evs) = Cmds.outcome st.
Proof.
  revert st. induction evs as [| ev evs IH]; intros st Hst; [done |].
  simpl. rewrite IH.
  - destruct ev; simpl; try done;
      destruct (Cmds.outcome st); done.
  - destruct ev; simpl; try done;
      destruct (Cmds.outcome st); done.
Qed.

Lemma handle_data (st : Cmds.proc) (evs : list event) :
  Forall is_data evs →
  foldl Cmds.handle st evs =
    {| Cmds.stdout := Cmds.stdout st ++ stdout_chunks evs;
       Cmds.stderr := Cmds.stderr st ++ stderr_chunks evs;
       Cmds.outcome := Cmds.outcome st |}.
Proof.
  intros Hdata. revert st.
  induction Hdata as [| ev evs Hev _ IH]; intros st.
  - simpl. rewrite !app_nil_r. by destruct st.
  - simpl. rewrite IH.
    destruct ev; try done; simpl;
      unfold stdout_chunks, stderr_chunks; simpl;
      by rewrite <- ?app_assoc.
Qed.

(** A child that only sends data until it closes: the promise is
    settled by the close handler on the chunks received so far. *)
Lemma exec_closed (w : world) cmd args cwd pre code post :
  w cmd args cwd = pre ++ Close code :: post →
  Forall is_data pre →
  Cmds.exec w cmd args cwd =
    Cmds.on_close {| Cmds.stdout := stdout_chunks pre;
                     Cmds.stderr := stderr_chunks pre;
                     Cmds.outcome := Pending |}.
Proof.
  intros Hw Hdata. unfold Cmds.exec. rewrite Hw.
  rewrite foldl_app, (handle_data _ pre Hdata). simpl.
  rewrite settled_stays; simpl.
  - done.
  - unfold Cmds.on_close. by case_match.
Qed.

(** A child that could not be started: the ['error'] event rejects the
    promise, and the ['close'] that follows changes nothing. *)
Lemma exec_spawn_error (w : world) cmd args cwd err post :
  w cmd args cwd = ProcError err :: post →
  Cmds.exec w cmd args cwd = Rejected (SpawnError err).
Proof.
  intros Hw. unfold Cmds.exec. rewrite Hw. simpl.
  by rewrite settled_stays.
Qed.

Lemma stderr_chunks_bytes (pre : list event) :
  Forall carries_bytes pre →
  concat (stderr_chunks pre) = [] → stderr_chunks pre = [].
Proof.
  induction 1 as [| ev evs Hev _ IH]; [done |].
  destruct ev; try done.
  unfold stderr_chunks; simpl.
  intros Hnil. apply app_eq_nil in Hnil as [? _]. done.
Qed.

Lemma carries_bytes_is_data (pre : list event) :
  Forall carries_bytes pre → Forall is_data pre.
Proof. intros Hpre. eapply Forall_impl; [exact Hpre | by intros []]. Qed.

End ExecFacts.

(** C9. The command runner rejects with the whole text of the error
    stream as soon as the child wrote anything to it, whatever the exit
    status [code]; if nothing was written it fulfils with the lines of
    the standard output; a git query whose command wrote to the error
    stream is rejected with that text and yields no map. The child is
    one that sends data and then closes. *)
Theorem exec_fails_on_error_output `{rt : Runtime} (w : world)
    (pre : list event) (code : option Z) (post : list event) :
  Forall is_data pre →
  (∀ cmd args cwd,
     w cmd args cwd = pre ++ Close code :: post →
     (concat (stderr_chunks pre) ≠ [] →
      Cmds.exec w cmd args cwd =
        Rejected (StderrText (Buffer_toString (concat (stderr_chunks pre)))))
     ∧ (Forall carries_bytes pre →
        concat (stderr_chunks pre) = [] →
        Cmds.exec w cmd args cwd =
          Fulfilled (JS.split chr_newline
                       (Buffer_toString (concat (stdout_chunks pre))))))
  ∧ (∀ path branch since,
       (∀ args, w (js "git") args (Some path) = pre ++ Close code :: post) →
       concat (stderr_chunks pre) ≠ [] →
       GitSource.getChanges path branch w since =
         Rejected (StderrText (Buffer_toString (concat (stderr_chunks pre))))).
Proof.
  intros Hdata.
  assert (∀ cmd args cwd,
            w cmd args cwd = pre ++ Close code :: post →
            concat (stderr_chunks pre) ≠ [] →
            Cmds.exec w cmd args cwd =
              Rejected (StderrText
                          (Buffer_toString (concat (stderr_chunks pre)))))
    as Hreject.
  { intros cmd args cwd Hw Herr.
    rewrite (exec_closed w cmd args cwd pre code post Hw Hdata).
    unfold Cmds.on_close; simpl.
    destruct (stderr_chunks pre) as [| chunk chunks]; [done | done]. }
  split.
  - intros cmd args cwd Hw. split; [by apply Hreject |].
    intros Hbytes Hnone.
    rewrite (exec_closed w cmd args cwd pre code post Hw Hdata).
    unfold Cmds.on_close; simpl.
    by rewrite (stderr_chunks_bytes pre Hbytes Hnone).
  - intros path branch since Hw Herr.
    unfold GitSource.getChanges, GitSource.getChangesSince,
      GitSource.listActive.
    destruct since as [[| c since] |]; by rewrite Hreject.
Qed.

Lemma exec_fails_on_error_output_witness :
  Cmds.exec (rt := ascii_runtime) (complains "fatal: bad object" 128)
    (js "git") [js "diff"] None
  = Rejected (StderrText (js "fatal: bad object"))
  ∧ GitSource.getChanges (rt := ascii_runtime) (js "/repo") (js "master")
      (complains "fatal: bad object" 0) (Some (js "f00d"))
    = Rejected (StderrText (js "fatal: bad object"))
  ∧ Cmds.exec (rt := ascii_runtime) (prints ["a.txt"; "b.txt"]%string)
      (js "ls") [] None
    = Fulfilled [js "a.txt"; js "b.txt"; []].
Proof.
  split; [| split].
  - apply (exec_fails_on_error_output (rt := ascii_runtime)
             (complains "fatal: bad object" 128)
             [StderrData (bytes "fatal: bad object")] (Some 128%Z) []).
    + repeat constructor.
    + reflexivity.
    + discriminate.
  - apply (exec_fails_on_error_output (rt := ascii_runtime)
             (complains "fatal: bad object" 0)
             [StderrData (bytes "fatal: bad object")] (Some 0%Z) []).
    + repeat constructor.
    + reflexivity.
    + discriminate.
  - apply (exec_fails_on_error_output (rt := ascii_runtime)
             (prints ["a.txt"; "b.txt"]%string)
             [StdoutData (printed [js "a.txt"; js "b.txt"])] (Some 0%Z) []).
    + repeat constructor.
    + reflexivity.
    + repeat constructor. discriminate.
    + reflexivity.
Defined.

(** ** The filesystem source *)

Section FileFacts.
Context `{rt : Runtime} (path : jsstring).

Lemma listActive_enumerated (w : world) (l : list jsstring) :
  enumerated path w = Some l →
  FileSource.listActive path w =
    Fulfilled (foldl FileSource.mark_active ∅ l).
Proof.
  unfold enumerated, FileSource.listActive.
  destruct (Cmds.exec w _ _ _); [done | | done].
  by intros [= <-].
Qed.

(** The map after a successful call, property by property. *)
Lemma lookup_rescan (changes : obj) (l : list jsstring) (k : jsstring) :
  Object_assign (FileSource.prepare changes)
    (foldl FileSource.mark_active ∅ l) !! k =
    if decide (k ∈ l ∧ k ≠ js "__proto__") then Some true
    else match changes !! k with
         | Some true => Some false
         | _ => None
         end.
Proof.
  rewrite lookup_Object_assign, lookup_union
    by (by apply (mark_all_proto_free FileSource.mark_active)).
  rewrite (lookup_mark_all FileSource.mark_active) by done.
  rewrite lookup_prepare, lookup_empty.
  case_decide; [| by rewrite (left_id None _)].
  by destruct (changes !! k) as [[] |].
Qed.

Lemma getChanges_enumerated (w : world) (l : list jsstring) (changes : obj) :
  enumerated path w = Some l →
  FileSource.getChanges path w changes =
    (Fulfilled (Object_assign (FileSource.prepare changes)
                  (foldl FileSource.mark_active ∅ l)),
     Object_assign (FileSource.prepare changes)
       (foldl FileSource.mark_active ∅ l)).
Proof.
  intros Hscan. unfold FileSource.getChanges.
  by rewrite (listActive_enumerated w l Hscan).
Qed.

Lemma getChanges_rejected (w : world) (reason : failure) (changes : obj) :
  Cmds.exec w (js "find") [path; js "-type"; js "f"] None = Rejected reason →
  FileSource.getChanges path w changes =
    (Rejected reason, FileSource.prepare changes).
Proof.
  intros Hexec. unfold FileSource.getChanges, FileSource.listActive.
  by rewrite Hexec.
Qed.

End FileFacts.

(** C1, as the code has it. When the enumeration is rejected the call
    is rejected with the same reason, and [tracked] is left as the
    rewrite loop made it: entries that were false are gone and all
    others are false. *)
Theorem failed_scan_leaves_prepared_state `{rt : Runtime} (path : jsstring)
    (w : world) (reason : failure) (tracked : obj) :
  Cmds.exec w (js "find") [path; js "-type"; js "f"] None = Rejected reason →
  FileSource.getChanges path w tracked =
    (Rejected reason, FileSource.prepare tracked)
  ∧ ∀ p, FileSource.prepare tracked !! p =
           match tracked !! p with
           | Some true => Some false
           | _ => None
           end.
Proof.
  intros Hexec. split.
  - by apply getChanges_rejected.
  - intros p. apply lookup_prepare.
Qed.

Lemma failed_scan_leaves_prepared_state_witness :
  FileSource.getChanges (rt := ascii_runtime) (js "/srv")
    (complains "find: /srv: Permission denied" 1) {[ js "a.txt" := true ]}
  = (Rejected (StderrText (js "find: /srv: Permission denied")),
     FileSource.prepare {[ js "a.txt" := true ]}).
Proof.
  apply (failed_scan_leaves_prepared_state (rt := ascii_runtime)).
  reflexivity.
Defined.

(** C1, as claimed, fails: after a rejected enumeration the entry that
    was true is false. *)
Lemma failed_scan_mutates_tracked :
  Cmds.exec (rt := ascii_runtime)
    (complains "find: /srv: Permission denied" 1) (js "find")
    [js "/srv"; js "-type"; js "f"] None
  = Rejected (StderrText (js "find: /srv: Permission denied"))
  ∧ (FileSource.getChanges (rt := ascii_runtime) (js "/srv")
       (complains "find: /srv: Permission denied" 1)
       {[ js "a.txt" := true ]}).2
    = {[ js "a.txt" := false ]}
  ∧ (FileSource.getChanges (rt := ascii_runtime) (js "/srv")
       (complains "find: /srv: Permission denied" 1)
       {[ js "a.txt" := true ]}).2
    ≠ {[ js "a.txt" := true ]}.
Proof.
  split; [reflexivity |].
  assert ((FileSource.getChanges (rt := ascii_runtime) (js "/srv")
             (complains "find: /srv: Permission denied" 1)
             {[ js "a.txt" := true ]}).2
          = {[ js "a.txt" := false ]}) as Hstate
    by (vm_compute; reflexivity).
  split; [exact Hstate |].
  rewrite Hstate.
  intros Heq.
  apply (f_equal (λ m : obj, m !! js "a.txt")) in Heq.
  rewrite !lookup_singleton_eq in Heq. discriminate.
Qed.

(** Three successive successful calls, spelled out. *)
Lemma queries_three `{rt : Runtime} (path : jsstring) (s0 : obj)
    (w1 w2 w3 : world) (l1 l2 l3 : list jsstring) :
  enumerated path w1 = Some l1 →
  enumerated path w2 = Some l2 →
  enumerated path w3 = Some l3 →
  ∃ m1 m2 m3,
    FileSource.queries path [w1; w2; w3] s0
      = ([Fulfilled m1; Fulfilled m2; Fulfilled m3], m3)
    ∧ (∀ k, m1 !! k = if decide (k ∈ l1 ∧ k ≠ js "__proto__") then Some true
                      else match s0 !! k with
                           | Some true => Some false
                           | _ => None
                           end)
    ∧ (∀ k, m2 !! k = if decide (k ∈ l2 ∧ k ≠ js "__proto__") then Some true
                      else match m1 !! k with
                           | Some true => Some false
                           | _ => None
                           end)
    ∧ (∀ k, m3 !! k = if decide (k ∈ l3 ∧ k ≠ js "__proto__") then Some true
                      else match m2 !! k with
                           | Some true => Some false
                           | _ => None
                           end).
Proof.
  intros H1 H2 H3. eexists _, _, _. split.
  - simpl.
    rewrite (getChanges_enumerated path w1 l1 _ H1).
    rewrite (getChanges_enumerated path w2 l2 _ H2).
    rewrite (getChanges_enumerated path w3 l3 _ H3).
    reflexivity.
  - repeat split; intros k; apply lookup_rescan.
Qed.

(** What a successful call reports true was enumerated, and is not the
    name [__proto__]. *)
Lemma reported_true (m prev : obj) (l : list jsstring) (p : jsstring) :
  (∀ k, m !! k = if decide (k ∈ l ∧ k ≠ js "__proto__") then Some true
                 else match prev !! k with
                      | Some true => Some false
                      | _ => None
                      end) →
  m !! p = Some true → p ∈ l ∧ p ≠ js "__proto__".
Proof.
  intros Hm Htrue. rewrite Hm in Htrue.
  case_decide; [done |]. by destruct (prev !! p) as [[] |].
Qed.



(** The same run, evaluated: [b.txt] is true, then false, then gone. *)
Example deletion_run :
  FileSource.queries (rt := ascii_runtime) (js "/srv")
    [prints ["/srv/a.txt"; "/srv/b.txt"]%string;
     prints ["/srv/a.txt"]%string;
     prints ["/srv/a.txt"]%string] ∅
  = ([Fulfilled {[ js "a.txt" := true; js "b.txt" := true ]};
      Fulfilled {[ js "a.txt" := true; js "b.txt" := false ]};
      Fulfilled {[ js "a.txt" := true ]}],
     {[ js "a.txt" := true ]}).
Proof. vm_compute. reflexivity. Qed.

(** C5. In any state reached from the empty map by successful calls,
    an entry that is false when a call starts is deleted by the rewrite
    loop; after the call it is not false (it is absent unless the scan
    enumerated it again), so no entry is false after two calls in a
    row. *)
Theorem deletion_not_kept `{rt : Runtime} (path : jsstring)
    (ws : list world) (w : world) (l : list jsstring) (p : jsstring) :
  Forall (λ w', is_Some (enumerated path w')) ws →
  enumerated path w = Some l →
  tracked_after path ws ∅ !! p = Some false →
  FileSource.prepare (tracked_after path ws ∅) !! p = None
  ∧ (FileSource.getChanges path w (tracked_after path ws ∅)).2 !! p
    ≠ Some false
  ∧ (p ∉ l →
     (FileSource.getChanges path w (tracked_after path ws ∅)).2 !! p = None).
Proof.
  intros _ Hscan Hfalse.
  rewrite (getChanges_enumerated path w l _ Hscan). simpl.
  rewrite lookup_prepare, lookup_rescan, Hfalse.
  split; [done |]. split.
  - by case_decide.
  - intros Hgone. rewrite decide_False; [done | by intros [? _]].
Qed.

Lemma deletion_not_kept_witness :
  Forall (λ w', is_Some (enumerated (rt := ascii_runtime) (js "/srv") w'))
    [prints ["/srv/a.txt"; "/srv/b.txt"]%string; prints ["/srv/a.txt"]%string]
  ∧ enumerated (rt := ascii_runtime) (js "/srv") (prints ["/srv/a.txt"]%string)
    = Some [js "a.txt"]
  ∧ tracked_after (rt := ascii_runtime) (js "/srv")
      [prints ["/srv/a.txt"; "/srv/b.txt"]%string; prints ["/srv/a.txt"]%string]
      ∅ !! js "b.txt" = Some false
  ∧ (FileSource.getChanges (rt := ascii_runtime) (js "/srv")
       (prints ["/srv/a.txt"]%string)
       (tracked_after (rt := ascii_runtime) (js "/srv")
          [prints ["/srv/a.txt"; "/srv/b.txt"]%string;
           prints ["/srv/a.txt"]%string] ∅)).2 !! js "b.txt"
    ≠ Some false.
Proof.
  assert (Forall
            (λ w', is_Some (enumerated (rt := ascii_runtime) (js "/srv") w'))
            [prints ["/srv/a.txt"; "/srv/b.txt"]%string;
             prints ["/srv/a.txt"]%string]) as Hws.
  { repeat constructor; eexists; vm_compute; reflexivity. }
  assert (enumerated (rt := ascii_runtime) (js "/srv")
            (prints ["/srv/a.txt"]%string) = Some [js "a.txt"]) as Hw
    by (vm_compute; reflexivity).
  assert (tracked_after (rt := ascii_runtime) (js "/srv")
            [prints ["/srv/a.txt"; "/srv/b.txt"]%string;
             prints ["/srv/a.txt"]%string] ∅ !! js "b.txt" = Some false)
    as Hfalse by (vm_compute; reflexivity).
  split; [exact Hws |]. split; [exact Hw |]. split; [exact Hfalse |].
  apply (deletion_not_kept (rt := ascii_runtime) (js "/srv")
           [prints ["/srv/a.txt"; "/srv/b.txt"]%string;
            prints ["/srv/a.txt"]%string]
           (prints ["/srv/a.txt"]%string) [js "a.txt"] (js "b.txt")
           Hws Hw Hfalse).
Defined.

(** X28. Two successive successful calls whose scans enumerate the
    same paths: what the first reports true the second reports true.
    And a path other than [__proto__] that is not in the map of one
    call and that the next scan enumerates is reported true, and true
    again by the call after if that scan enumerates it too. *)
Theorem unchanged_scan_keeps_active `{rt : Runtime} (path : jsstring)
    (s0 : obj) (w1 w2 w3 : world) (l1 l2 l3 : list jsstring) :
  enumerated path w1 = Some l1 →
  enumerated path w2 = Some l2 →
  enumerated path w3 = Some l3 →
  ∃ m1 m2 m3,
    FileSource.queries path [w1; w2; w3] s0
      = ([Fulfilled m1; Fulfilled m2; Fulfilled m3], m3)
    ∧ ((∀ q, q ∈ l1 ↔ q ∈ l2) →
       ∀ p, m1 !! p = Some true → m2 !! p = Some true)
    ∧ ((∀ q, q ∈ l2 ↔ q ∈ l3) →
       ∀ p, m2 !! p = Some true → m3 !! p = Some true)
    ∧ (∀ p, p ≠ js "__proto__" → m1 !! p = None → p ∈ l2 →
            m2 !! p = Some true ∧ (p ∈ l3 → m3 !! p = Some true)).
Proof.
  intros H1 H2 H3.
  destruct (queries_three path s0 w1 w2 w3 l1 l2 l3 H1 H2 H3)
    as (m1 & m2 & m3 & Hq & Hm1 & Hm2 & Hm3).
  exists m1, m2, m3. split; [exact Hq |].
  split; [| split].
  - intros Hsame p Htrue.
    destruct (reported_true m1 s0 l1 p Hm1 Htrue) as [Hin Hp].
    rewrite Hm2, decide_True; [done |]. split; [by apply Hsame | done].
  - intros Hsame p Htrue.
    destruct (reported_true m2 m1 l2 p Hm2 Htrue) as [Hin Hp].
    rewrite Hm3, decide_True; [done |]. split; [by apply Hsame | done].
  - intros p Hp _ Hin. split.
    + rewrite Hm2, decide_True; done.
    + intros Hin3. rewrite Hm3, decide_True; done.
Qed.

Lemma unchanged_scan_keeps_active_witness :
  enumerated (rt := ascii_runtime) (js "/srv") (prints ["/srv/a.txt"]%string)
  = Some [js "a.txt"]
  ∧ enumerated (rt := ascii_runtime) (js "/srv")
      (prints ["/srv/a.txt"; "/srv/b.txt"]%string)
    = Some [js "a.txt"; js "b.txt"]
  ∧ ∃ m1 m2 m3,
      FileSource.queries (rt := ascii_runtime) (js "/srv")
        [prints ["/srv/a.txt"]%string;
         prints ["/srv/a.txt"; "/srv/b.txt"]%string;
         prints ["/srv/a.txt"; "/srv/b.txt"]%string] ∅
        = ([Fulfilled m1; Fulfilled m2; Fulfilled m3], m3)
      ∧ ((∀ q, q ∈ [js "a.txt"] ↔ q ∈ [js "a.txt"; js "b.txt"]) →
         ∀ p, m1 !! p = Some true → m2 !! p = Some true)
      ∧ ((∀ q, q ∈ [js "a.txt"; js "b.txt"] ↔ q ∈ [js "a.txt"; js "b.txt"]) →
         ∀ p, m2 !! p = Some true → m3 !! p = Some true)
      ∧ (∀ p, p ≠ js "__proto__" → m1 !! p = None →
              p ∈ [js "a.txt"; js "b.txt"] →
              m2 !! p = Some true
              ∧ (p ∈ [js "a.txt"; js "b.txt"] → m3 !! p = Some true)).
Proof.
  split; [vm_compute; reflexivity |].
  split; [vm_compute; reflexivity |].
  apply (unchanged_scan_keeps_active (rt := ascii_runtime) (js "/srv") ∅
           (prints ["/srv/a.txt"]%string)
           (prints ["/srv/a.txt"; "/srv/b.txt"]%string)
           (prints ["/srv/a.txt"; "/srv/b.txt"]%string)
           [js "a.txt"] [js "a.txt"; js "b.txt"] [js "a.txt"; js "b.txt"]);
    vm_compute; reflexivity.
Defined.

(** C6, evaluated where the code departs from it. A file named
    [__proto__] that appears under the root is enumerated by the scan
    but is not in the map of that call, nor of the next: the
    assignment [active[file] = true] creates no property for that
    name. The other file stays true from call to call. *)
Theorem enumerated_proto_file_not_reported :
  enumerated (rt := ascii_runtime) (js "/srv")
    (prints ["/srv/a.txt"; "/srv/__proto__"]%string)
  = Some [js "a.txt"; js "__proto__"]
  ∧ FileSource.queries (rt := ascii_runtime) (js "/srv")
      [prints ["/srv/a.txt"]%string;
       prints ["/srv/a.txt"; "/srv/__proto__"]%string;
       prints ["/srv/a.txt"; "/srv/__proto__"]%string] ∅
    = ([Fulfilled {[ js "a.txt" := true ]};
        Fulfilled {[ js "a.txt" := true ]};
        Fulfilled {[ js "a.txt" := true ]}],
       {[ js "a.txt" := true ]})
  ∧ ({[ js "a.txt" := true ]} : obj) !! js "__proto__" = None.
Proof. repeat split; vm_compute; reflexivity. Qed.

(** That run, evaluated: [b.txt] appears and stays while the scan
    does not change. *)
Example addition_run :
  FileSource.queries (rt := ascii_runtime) (js "/srv")
    [prints ["/srv/a.txt"]%string;
     prints ["/srv/a.txt"; "/srv/b.txt"]%string;
     prints ["/srv/a.txt"; "/srv/b.txt"]%string] ∅
  = ([Fulfilled {[ js "a.txt" := true ]};
      Fulfilled {[ js "a.txt" := true; js "b.txt" := true ]};
      Fulfilled {[ js "a.txt" := true; js "b.txt" := true ]}],
     {[ js "a.txt" := true; js "b.txt" := true ]}).
Proof. vm_compute. reflexivity. Qed.

(** ** Splitting lines into fields *)

Lemma split_app_sep (sep : N) (a b : jsstring) :
  sep ∉ a → JS.split sep (a ++ sep :: b) = a :: JS.split sep b.
Proof.
  induction a as [| c a IH]; intros Hfree; simpl.
  - by rewrite N.eqb_refl.
  - apply not_elem_of_cons in Hfree as [Hne Hfree].
    rewrite IH by done.
    destruct (N.eqb_spec c sep); [by subst | done].
Qed.

Lemma split_free (sep : N) (a : jsstring) :
  sep ∉ a → JS.split sep a = [a].
Proof.
  induction a as [| c a IH]; intros Hfree; simpl; [done |].
  apply not_elem_of_cons in Hfree as [Hne Hfree].
  rewrite IH by done.
  destruct (N.eqb_spec c sep); [by subst | done].
Qed.

Lemma split_join (sep : N) (pieces : list jsstring) :
  pieces ≠ [] →
  Forall (λ piece, sep ∉ piece) pieces →
  JS.split sep (join sep pieces) = pieces.
Proof.
  intros Hne Hfree.
  induction Hfree as [| piece rest Hpiece Hrest IH]; [done |].
  destruct rest as [| next rest].
  - by apply split_free.
  - change (join sep (piece :: next :: rest))
      with (piece ++ sep :: join sep (next :: rest)).
    rewrite split_app_sep by done.
    by rewrite IH.
Qed.

(** A check that decides tab-freeness of concrete fields. *)
Lemma tab_free_fields (fields : list jsstring) :
  forallb (λ field, forallb (λ c, negb (c =? chr_tab)) field) fields = true →
  Forall (λ field, chr_tab ∉ field) fields.
Proof.
  intros Hall. apply Forall_forall. intros field Hin Htab.
  rewrite forallb_forall in Hall.
  apply list_elem_of_In in Hin. specialize (Hall field Hin).
  rewrite forallb_forall in Hall.
  apply list_elem_of_In in Htab. specialize (Hall chr_tab Htab).
  by rewrite N.eqb_refl in Hall.
Qed.

(** ** The git source *)

(** C3, evaluated where the code departs from it. A diff line whose
    path is [__proto__] sets nothing: the modified file of that name
    is not in the map, and neither is it as the target of a rename.
    The entries of the specification give what it says. *)
Theorem diff_proto_path_not_recorded :
  GitSource.getChanges (rt := ascii_runtime) (js "/repo") (js "master")
    (emits [diff_line [js "M"; js "__proto__"];
            diff_line [js "A"; js "a.txt"]])
    (Some (js "HEAD~1"))
  = Fulfilled {[ js "a.txt" := true ]}
  ∧ GitSource.getChanges (rt := ascii_runtime) (js "/repo") (js "master")
      (emits [diff_line [js "R100"; js "old.txt"; js "__proto__"]])
      (Some (js "HEAD~1"))
    = Fulfilled {[ js "old.txt" := false ]}
  ∧ GitSource.getChanges (rt := ascii_runtime) (js "/repo") (js "master")
      (emits [diff_line [js "R100"; js "from.txt"; js "to.txt"]])
      (Some (js "HEAD~1"))
    = Fulfilled {[ js "from.txt" := false; js "to.txt" := true ]}
  ∧ GitSource.getChanges (rt := ascii_runtime) (js "/repo") (js "master")
      (emits [diff_line [js "D"; js "file.txt"];
              diff_line [js "C100"; js "a.txt"; js "b.txt"]])
      (Some (js "HEAD~1"))
    = Fulfilled {[ js "file.txt" := false; js "a.txt" := true ]}.
Proof. repeat split; vm_compute; reflexivity. Qed.

(** X29. Without [since] the query is the listing: the keys of the
    map are exactly the normalised non-empty lines of the output other
    than [__proto__], every value is true, and when those lines are
    pairwise distinct once normalised, and none is [__proto__], there
    are as many keys as non-empty lines. *)
Theorem listing_marks_every_line_active `{rt : Runtime}
    (path branch : jsstring) (w : world) (files : list jsstring) :
  Cmds.exec w (js "git")
    [js "ls-tree"; js "-r"; js "--name-only"; js "--full-tree"; branch]
    (Some path)
  = Fulfilled files →
  ∃ changes,
    GitSource.getChanges path branch w None = Fulfilled changes
    ∧ (∀ k, is_Some (changes !! k) ↔
            k ≠ js "__proto__"
            ∧ ∃ file, file ∈ files ∧ file ≠ [] ∧ correctExtendedChars file = k)
    ∧ (∀ k v, changes !! k = Some v → v = true)
    ∧ (NoDup (correctExtendedChars <$> filter nonempty files) →
       js "__proto__" ∉ correctExtendedChars <$> filter nonempty files →
       size changes = List.length (filter nonempty files)).
Proof.
  intros Hexec. eexists. split.
  { unfold GitSource.getChanges, GitSource.listActive.
    rewrite Hexec. reflexivity. }
  assert (∀ file : jsstring, nonempty file ↔ file ≠ []) as Hnonempty.
  { intros [| c file]; unfold nonempty, JS.length; simpl; split;
      (done || lia). }
  split; [| split].
  - intros k. rewrite (lookup_mark_all GitSource.mark_active) by done.
    rewrite lookup_empty. case_decide as Hin.
    + split; [intros _ | by eauto].
      destruct Hin as [Hin Hk]. split; [done |].
      apply list_elem_of_fmap in Hin as (file & -> & Hfile).
      apply list_elem_of_filter in Hfile as [Hne Hfile].
      exists file. by rewrite <- Hnonempty.
    + split; [by intros [? ?] |].
      intros (Hk & file & Hfile & Hne & <-). destruct Hin.
      split; [| done].
      apply list_elem_of_fmap. exists file. split; [done |].
      apply list_elem_of_filter. by rewrite Hnonempty.
  - intros k v. rewrite (lookup_mark_all GitSource.mark_active) by done.
    rewrite lookup_empty. case_decide; congruence.
  - intros Hdistinct Hproto.
    rewrite (size_mark_all GitSource.mark_active) by done.
    by rewrite length_fmap.
Qed.

Lemma listing_marks_every_line_active_witness :
  Cmds.exec (rt := ascii_runtime) (prints ["README.md"; "src/main.js"]%string)
    (js "git")
    [js "ls-tree"; js "-r"; js "--name-only"; js "--full-tree"; js "master"]
    (Some (js "/repo"))
  = Fulfilled [js "README.md"; js "src/main.js"; []]
  ∧ ∃ changes,
      GitSource.getChanges (rt := ascii_runtime) (js "/repo") (js "master")
        (prints ["README.md"; "src/main.js"]%string) None
      = Fulfilled changes
      ∧ (∀ k, is_Some (changes !! k) ↔
              k ≠ js "__proto__"
              ∧ ∃ file, file ∈ [js "README.md"; js "src/main.js"; []]
                        ∧ file ≠ [] ∧ correctExtendedChars file = k)
      ∧ (∀ k v, changes !! k = Some v → v = true)
      ∧ (NoDup (correctExtendedChars
                  <$> filter nonempty [js "README.md"; js "src/main.js"; []]) →
         js "__proto__"
           ∉ correctExtendedChars
               <$> filter nonempty [js "README.md"; js "src/main.js"; []] →
         size changes
         = List.length
             (filter nonempty [js "README.md"; js "src/main.js"; []])).
Proof.
  split; [vm_compute; reflexivity |].
  apply (listing_marks_every_line_active (rt := ascii_runtime)
           (js "/repo") (js "master")
           (prints ["README.md"; "src/main.js"]%string)).
  vm_compute. reflexivity.
Defined.

(** C8, evaluated where the code departs from it. A listing with the
    lines [__proto__] and [plain.txt] gives a map with the one key
    [plain.txt]; and the quoted lines for the files [\003] and [\389]
    both become the key made of a backslash and the unit 3, so two
    lines give one key. Every value is true. *)
Theorem listing_lines_without_key :
  GitSource.getChanges (rt := ascii_runtime) (js "/repo") (js "master")
    (prints ["__proto__"; "plain.txt"]%string) None
  = Fulfilled {[ js "plain.txt" := true ]}
  ∧ GitSource.getChanges (rt := ascii_runtime) (js "/repo") (js "master")
      (emits [quoted (js "\\003"); quoted (js "\\389")]) None
    = Fulfilled {[ [chr_backslash; 3] := true ]}.
Proof. repeat split; vm_compute; reflexivity. Qed.

(** That listing, evaluated. *)
Example listing_run :
  GitSource.getChanges (rt := ascii_runtime) (js "/repo") (js "master")
    (prints ["README.md"; "src/main.js"]%string) None
  = Fulfilled {[ js "README.md" := true; js "src/main.js" := true ]}.
Proof. vm_compute. reflexivity. Qed.

(** C10. The one-character string that is a double quote passes the
    test on first and last character and is sliced to the empty string;
    such a line of the listing, or such a path of a diff entry, becomes
    the key that is the empty string. *)
Theorem lone_quote_is_empty_key :
  JS.length [chr_quote] = 1%Z
  ∧ correctExtendedChars [chr_quote] = []
  ∧ GitSource.getChanges (rt := ascii_runtime) (js "/repo") (js "master")
      (emits [[chr_quote]]) None
    = Fulfilled {[ [] := true ]}
  ∧ GitSource.getChanges (rt := ascii_runtime) (js "/repo") (js "master")
      (emits [diff_line [js "M"; [chr_quote]]]) (Some (js "HEAD~1"))
    = Fulfilled {[ [] := true ]}.
Proof. repeat split; vm_compute; reflexivity. Qed.

(** C2, evaluated where the code departs from it. In a rename entry
    whose two names are quoted, the old name is normalised and the new
    name is used as it stands, quotes and escapes included; the
    normalised new name is not a key. *)
Theorem rename_target_not_normalized :
  GitSource.getChanges (rt := ascii_runtime) (js "/repo") (js "master")
    (emits [diff_line [js "R100"; quoted (js "a\303\251.txt");
                       quoted (js "b\303\251.txt")]])
    (Some (js "HEAD~1"))
  = Fulfilled {[ js "a" ++ [195; 169] ++ js ".txt" := false;
                 quoted (js "b\303\251.txt") := true ]}
  ∧ correctExtendedChars (quoted (js "b\303\251.txt"))
    = js "b" ++ [195; 169] ++ js ".txt"
  ∧ ({[ js "a" ++ [195; 169] ++ js ".txt" := false;
        quoted (js "b\303\251.txt") := true ]} : obj)
      !! (js "b" ++ [195; 169] ++ js ".txt") = None
  ∧ GitSource.getChanges (rt := ascii_runtime) (js "/repo") (js "master")
      (emits [quoted (js "b\303\251.txt")]) None
    = Fulfilled {[ js "b" ++ [195; 169] ++ js ".txt" := true ]}.
Proof. repeat split; vm_compute; reflexivity. Qed.

(** ** Normalisation against the wording of the specification *)

Lemma octal_digit_is_digit (d : N) :
  JS.is_octal_digit d = true → JS.is_digit d = true.
Proof.
  unfold JS.is_octal_digit, JS.is_digit.
  rewrite !andb_true_iff, !N.leb_le. lia.
Qed.

(** A decimal digit is neither white space nor a sign, so [parseInt]
    starts reading digits at once. *)
Lemma parseInt8_digit_first (d1 : N) (s : jsstring) :
  JS.is_digit d1 = true →
  JS.parseInt8 (d1 :: s) =
    match JS.parse_octal (d1 :: s) 0 false with
    | Some n => Some (Z.of_N n)
    | None => None
    end.
Proof.
  intros Hd. unfold JS.is_digit in Hd.
  rewrite andb_true_iff, !N.leb_le in Hd.
  unfold JS.parseInt8. cbn [JS.skip_white_space].
  assert (JS.is_white_space d1 = false) as ->.
  { unfold JS.is_white_space. cbn [existsb].
    repeat (rewrite (proj2 (N.eqb_neq d1 _)) by lia). reflexivity. }
  rewrite (proj2 (N.eqb_neq d1 45)), (proj2 (N.eqb_neq d1 43)) by lia.
  cbn [fst snd].
  destruct (JS.parse_octal (d1 :: s) 0 false); [| done].
  by rewrite Z.mul_1_l.
Qed.

Lemma octetToStr_octal (c d1 d2 d3 : N) :
  JS.is_octal_digit d1 = true →
  JS.is_octal_digit d2 = true →
  JS.is_octal_digit d3 = true →
  octetToStr [c; d1; d2; d3] = [64 * (d1 - 48) + 8 * (d2 - 48) + (d3 - 48)].
Proof.
  intros H1 H2 H3. unfold octetToStr.
  change (JS.slice_from [c; d1; d2; d3] 1) with [d1; d2; d3].
  rewrite parseInt8_digit_first by by apply octal_digit_is_digit.
  cbn [JS.parse_octal]. rewrite H1, H2, H3.
  unfold JS.fromCharCode. f_equal.
  unfold JS.is_octal_digit in *.
  rewrite !andb_true_iff, !N.leb_le in *.
  rewrite Z.mod_small by lia. lia.
Qed.

Lemma replace_octets_match (c d1 d2 d3 : N) (rest : jsstring) :
  replace_octets (c :: d1 :: d2 :: d3 :: rest) =
    if (c =? chr_backslash) && JS.is_digit d1 && JS.is_digit d2
       && JS.is_digit d3
    then octetToStr [c; d1; d2; d3] ++ replace_octets rest
    else c :: replace_octets (d1 :: d2 :: d3 :: rest).
Proof. reflexivity. Qed.

Lemma spec_decode_escapes_match (c d1 d2 d3 : N) (rest : jsstring) :
  spec_decode_escapes (c :: d1 :: d2 :: d3 :: rest) =
    if (c =? chr_backslash) && JS.is_octal_digit d1
       && JS.is_octal_digit d2 && JS.is_octal_digit d3
    then (64 * (d1 - 48) + 8 * (d2 - 48) + (d3 - 48))
           :: spec_decode_escapes rest
    else c :: spec_decode_escapes (d1 :: d2 :: d3 :: rest).
Proof. reflexivity. Qed.

Lemma escapes_are_octal_match (c d1 d2 d3 : N) (rest : jsstring) :
  escapes_are_octal (c :: d1 :: d2 :: d3 :: rest) =
    if (c =? chr_backslash) && JS.is_digit d1 && JS.is_digit d2
       && JS.is_digit d3
    then JS.is_octal_digit d1 && JS.is_octal_digit d2
         && JS.is_octal_digit d3 && escapes_are_octal rest
    else escapes_are_octal (d1 :: d2 :: d3 :: rest).
Proof. reflexivity. Qed.

(** On texts whose escapes are octal the code decodes as the
    specification says. *)
Lemma replace_octets_octal (s : jsstring) :
  escapes_are_octal s = true → replace_octets s = spec_decode_escapes s.
Proof.
  remember (List.length s) as n eqn:Hn.
  revert s Hn. induction (lt_wf n) as [n _ IH]. intros s -> Hoct.
  destruct s as [| c [| d1 [| d2 [| d3 rest]]]]; try reflexivity.
  rewrite escapes_are_octal_match in Hoct.
  rewrite replace_octets_match, spec_decode_escapes_match.
  destruct ((c =? chr_backslash) && JS.is_digit d1 && JS.is_digit d2
            && JS.is_digit d3) eqn:Hmatch.
  - apply andb_true_iff in Hoct as [Hoct Hrest].
    apply andb_true_iff in Hoct as [Hoct H3].
    apply andb_true_iff in Hoct as [H1 H2].
    apply andb_true_iff in Hmatch as [Hmatch _].
    apply andb_true_iff in Hmatch as [Hmatch _].
    apply andb_true_iff in Hmatch as [Hc _].
    rewrite Hc, H1, H2, H3. simpl andb. cbv iota.
    rewrite (octetToStr_octal c d1 d2 d3) by done.
    simpl app. f_equal.
    apply (IH (List.length rest)); [simpl; lia | done | done].
  - assert ((c =? chr_backslash) && JS.is_octal_digit d1
            && JS.is_octal_digit d2 && JS.is_octal_digit d3 = false)
      as ->.
    { apply not_true_is_false. intros Hspec. 
      apply andb_true_iff in Hspec as [Hspec H3].
      apply andb_true_iff in Hspec as [Hspec H2].
      apply andb_true_iff in Hspec as [Hc H1].
      rewrite Hc, !octal_digit_is_digit in Hmatch by done.
      discriminate. }
    f_equal.
    apply (IH (List.length (d1 :: d2 :: d3 :: rest)));
      [simpl; lia | done | done].
Qed.

Lemma last_charCode (s : jsstring) :
  s ≠ [] → JS.charCodeAt s (JS.length s - 1) = last s.
Proof.
  intros Hne. unfold JS.charCodeAt, JS.length.
  destruct s as [| c s]; [done |].
  replace (Z.of_nat (List.length (c :: s)) - 1)%Z
    with (Z.of_nat (List.length s)) by (simpl; lia).
  destruct (Z.ltb_spec (Z.of_nat (List.length s)) 0); [lia |].
  rewrite Nat2Z.id. clear.
  revert c. induction s as [| d s IH]; intros c; [done |].
  simpl. rewrite IH. by destruct s.
Qed.

(** X26. On every path whose escapes all have octal digits the code
    does what the wording asks: the quotes are stripped and each
    escape becomes the unit of its octal value. *)
Lemma correctExtendedChars_meets_spec (s : jsstring) :
  escapes_are_octal (JS.slice s 1 (-1)) = true →
  correctExtendedChars s = spec_normalize s.
Proof.
  intros Hoct. unfold correctExtendedChars, spec_normalize.
  destruct s as [| first rest]; [done |].
  rewrite last_charCode by done.
  change (JS.charCodeAt (first :: rest) 0) with (Some first).
  destruct (N.eqb_spec first chr_quote) as [-> | Hfirst]; simpl andb.
  - destruct (decide (last (chr_quote :: rest) = Some chr_quote))
      as [Hlast | Hlast].
    + rewrite !bool_decide_eq_true_2 by done.
      by apply replace_octets_octal.
    + rewrite !bool_decide_eq_false_2; [done | done | by intros [_ ?]].
  - rewrite bool_decide_eq_false_2; [done |].
    intros [[= ?] _]. done.
Qed.

(** C7, evaluated. The example of the specification decodes as it
    says. The pattern of the code takes any three decimal digits: the
    git rendering of the file name [\389é] has its [\389] replaced by
    the unit 3, where the specification's decoding leaves it alone; and
    three octal digits above [\377] give a unit above 255. *)
Theorem normalization_decimal_digits :
  correctExtendedChars (quoted (js "caf\303\251.txt"))
    = js "caf" ++ [195; 169] ++ js ".txt"
  ∧ spec_normalize (quoted (js "caf\303\251.txt"))
    = js "caf" ++ [195; 169] ++ js ".txt"
  ∧ correctExtendedChars (js "plain.txt") = js "plain.txt"
  ∧ correctExtendedChars (quoted (js "\\389\303\251"))
    = chr_backslash :: [3; 195; 169]
  ∧ spec_normalize (quoted (js "\\389\303\251"))
    = js "\\389" ++ [195; 169]
  ∧ correctExtendedChars (quoted (js "\389")) = [3]
  ∧ spec_normalize (quoted (js "\389")) = js "\389"
  ∧ correctExtendedChars (quoted (js "\899")) = [0]
  ∧ correctExtendedChars (quoted (js "\777")) = [511].
Proof. repeat split; vm_compute; reflexivity. Qed.


(** * Further properties of the code *)

(** ** Normalisation *)

Lemma replace_octets_other (c : N) (s : jsstring) :
  c ≠ chr_backslash → replace_octets (c :: s) = c :: replace_octets s.
Proof.
  intros Hc.
  destruct s as [| d1 [| d2 [| d3 rest]]]; try reflexivity.
  rewrite replace_octets_match.
  by destruct (N.eqb_spec c chr_backslash).
Qed.

Lemma replace_octets_plain (s : jsstring) :
  chr_backslash ∉ s → replace_octets s = s.
Proof.
  induction s as [| c s IH]; intros Hfree; [done |].
  apply not_elem_of_cons in Hfree as [Hc Hfree].
  rewrite replace_octets_other by done.
  by rewrite IH.
Qed.

Lemma slice_quoted (s : jsstring) : JS.slice (quoted s) 1 (-1) = s.
Proof.
  unfold JS.slice, JS.rel_index, JS.length, quoted.
  change (List.length (chr_quote :: s ++ [chr_quote]))
    with (S (List.length (s ++ [chr_quote]))).
  rewrite length_app. simpl List.length.
  change (1 <? 0)%Z with false. change (-1 <? 0)%Z with true. cbv iota.
  rewrite Z.min_l, Z.max_l by lia.
  change (Z.to_nat 1) with 1%nat. simpl drop.
  replace (Z.to_nat (Z.of_nat (S (List.length s + 1)) + -1 - 1))
    with (List.length s) by lia.
  rewrite drop_0. by rewrite take_app_length.
Qed.

Lemma correctExtendedChars_quoted (s : jsstring) :
  correctExtendedChars (quoted s) = replace_octets s.
Proof.
  unfold correctExtendedChars.
  rewrite last_charCode by done.
  rewrite bool_decide_eq_true_2.
  - by rewrite slice_quoted.
  - split; [done |].
    unfold quoted. change (chr_quote :: s ++ [chr_quote])
      with ((chr_quote :: s) ++ [chr_quote]).
    apply last_snoc.
Qed.

(** X1. A path that does not both begin and end with a double quote is
    returned as it is. *)
Theorem unquoted_path_unchanged (s : jsstring) :
  ¬ (head s = Some chr_quote ∧ last s = Some chr_quote) →
  correctExtendedChars s = s.
Proof.
  intros Hplain. unfold correctExtendedChars.
  destruct s as [| c s]; [done |].
  rewrite last_charCode by done.
  by rewrite bool_decide_eq_false_2.
Qed.

Lemma unquoted_path_unchanged_witness :
  correctExtendedChars (chr_quote :: js "half.txt") = chr_quote :: js "half.txt".
Proof.
  apply unquoted_path_unchanged.
  intros [_ Hlast]. vm_compute in Hlast. discriminate.
Defined.

(** X2. Quoting a name that holds no backslash and normalising it gives
    the name back. *)
Theorem quoted_name_roundtrip (s : jsstring) :
  chr_backslash ∉ s → correctExtendedChars (quoted s) = s.
Proof.
  intros Hfree.
  rewrite correctExtendedChars_quoted.
  by apply replace_octets_plain.
Qed.

Lemma quoted_name_roundtrip_witness :
  correctExtendedChars (quoted (js "with space.txt")) = js "with space.txt".
Proof.
  apply quoted_name_roundtrip.
  intros Hin. apply list_elem_of_In in Hin. vm_compute in Hin.
  repeat (destruct Hin as [Hin | Hin]; [discriminate |]). exact Hin.
Defined.

(** X3. The escapes the pattern finds, a backslash and three decimal
    digits, are each replaced by one unit; that unit is below 512, and
    it is 0 when the first digit is 8 or 9. *)
Theorem octetToStr_one_unit (c d1 d2 d3 : N) :
  JS.is_digit d1 = true → JS.is_digit d2 = true → JS.is_digit d3 = true →
  ∃ n, octetToStr [c; d1; d2; d3] = [n]
       ∧ n < 512
       ∧ (JS.is_octal_digit d1 = false → n = 0).
Proof.
  intros Hd1 _ _. unfold octetToStr.
  change (JS.slice_from [c; d1; d2; d3] 1) with [d1; d2; d3].
  rewrite parseInt8_digit_first by done.
  cbn [JS.parse_octal].
  assert (∀ d, JS.is_octal_digit d = true → d - 48 ≤ 7) as Hdigit.
  { intros d. unfold JS.is_octal_digit.
    rewrite andb_true_iff, !N.leb_le. lia. }
  destruct (JS.is_octal_digit d1) eqn:H1;
    [| exists 0; split; [done | split; [lia | done]]].
  apply Hdigit in H1.
  destruct (JS.is_octal_digit d2) eqn:H2.
  - apply Hdigit in H2.
    destruct (JS.is_octal_digit d3) eqn:H3.
    + apply Hdigit in H3. eexists. split; [reflexivity |].
      rewrite Z.mod_small by lia. split; [lia | done].
    + eexists. split; [reflexivity |].
      rewrite Z.mod_small by lia. split; [lia | done].
  - eexists. split; [reflexivity |].
    rewrite Z.mod_small by lia. split; [lia | done].
Qed.

Lemma octetToStr_one_unit_witness :
  ∃ n, octetToStr (js "\389") = [n]
       ∧ n < 512
       ∧ (JS.is_octal_digit 51 = false → n = 0).
Proof.
  apply (octetToStr_one_unit chr_backslash 51 56 57); reflexivity.
Defined.

Lemma length_octetToStr (octet : jsstring) :
  List.length (octetToStr octet) = 1%nat.
Proof.
  unfold octetToStr, JS.fromCharCode.
  by destruct (JS.parseInt8 (JS.slice_from octet 1)).
Qed.

Lemma length_replace_octets (s : jsstring) :
  (List.length (replace_octets s) ≤ List.length s)%nat.
Proof.
  remember (List.length s) as n eqn:Hn.
  revert s Hn. induction (lt_wf n) as [n _ IH]. intros s ->.
  destruct s as [| c [| d1 [| d2 [| d3 rest]]]]; try (simpl; lia).
  rewrite replace_octets_match.
  destruct ((c =? chr_backslash) && JS.is_digit d1 && JS.is_digit d2
            && JS.is_digit d3).
  - rewrite length_app, length_octetToStr.
    specialize (IH (List.length rest)).
    simpl in *. specialize (IH ltac:(lia) rest eq_refl). lia.
  - specialize (IH (List.length (d1 :: d2 :: d3 :: rest))).
    change (List.length (c :: replace_octets (d1 :: d2 :: d3 :: rest)))
      with (S (List.length (replace_octets (d1 :: d2 :: d3 :: rest)))).
    specialize (IH ltac:(simpl; lia) (d1 :: d2 :: d3 :: rest) eq_refl).
    simpl in *. lia.
Qed.

(** X4. Normalisation never makes a path longer. *)
Theorem normalization_never_lengthens (s : jsstring) :
  (List.length (correctExtendedChars s) ≤ List.length s)%nat.
Proof.
  unfold correctExtendedChars. case_bool_decide; [| done].
  etrans; [apply length_replace_octets |].
  unfold JS.slice. rewrite length_take, length_drop. lia.
Qed.

Lemma correctExtendedChars_meets_spec_witness :
  correctExtendedChars (quoted (js "caf\303\251.txt"))
  = spec_normalize (quoted (js "caf\303\251.txt")).
Proof.
  apply correctExtendedChars_meets_spec. vm_compute. reflexivity.
Defined.

(** ** Lines and fields *)

Lemma split_not_nil (sep : N) (s : jsstring) : JS.split sep s ≠ [].
Proof.
  destruct s as [| c s]; simpl; [done |].
  destruct (c =? sep); [done |]. by destruct (JS.split sep s).
Qed.

Lemma join_cons_char (sep c : N) (piece : jsstring) (rest : list jsstring) :
  join sep ((c :: piece) :: rest) = c :: join sep (piece :: rest).
Proof. by destruct rest. Qed.

Lemma join_split (sep : N) (s : jsstring) : join sep (JS.split sep s) = s.
Proof.
  induction s as [| c s IH]; [done |]. simpl.
  pose proof (split_not_nil sep s) as Hnil.
  destruct (N.eqb_spec c sep) as [-> | Hne];
    destruct (JS.split sep s) as [| piece rest] eqn:Hsplit; try done.
  - change (join sep ([] :: piece :: rest))
      with (sep :: join sep (piece :: rest)).
    by rewrite IH.
  - rewrite join_cons_char. by rewrite IH.
Qed.

Lemma split_pieces_free (sep : N) (s : jsstring) :
  Forall (λ piece, sep ∉ piece) (JS.split sep s).
Proof.
  induction s as [| c s IH]; simpl.
  - repeat constructor. apply not_elem_of_nil.
  - destruct (N.eqb_spec c sep) as [-> | Hne].
    + constructor; [apply not_elem_of_nil | done].
    + pose proof (split_not_nil sep s) as Hnil.
      destruct (JS.split sep s) as [| piece rest]; [done |].
      apply Forall_cons in IH as [Hpiece Hrest].
      constructor; [| done].
      by apply not_elem_of_cons.
Qed.

Lemma length_split (sep : N) (s : jsstring) :
  List.length (JS.split sep s) = S (List.length (filter (λ c, c = sep) s)).
Proof.
  induction s as [| c s IH]; [done |]. simpl.
  destruct (N.eqb_spec c sep) as [-> | Hne].
  - rewrite filter_cons_True by done. simpl. by rewrite IH.
  - rewrite filter_cons_False by done.
    pose proof (split_not_nil sep s) as Hnil.
    destruct (JS.split sep s) as [| piece rest]; [done |].
    exact IH.
Qed.

(** ** The command runner, continued *)

Section ExecMore.
Context `{rt : Runtime}.

Lemma handle_settles (st : Cmds.proc) (ev : event) :
  ¬ is_data ev → Cmds.outcome (Cmds.handle st ev) ≠ Pending.
Proof.
  destruct ev; simpl; try done; intros _.
  - by destruct (Cmds.outcome st).
  - unfold Cmds.on_close.
    destruct (Cmds.outcome st); simpl; [| done | done].
    by case_match.
Qed.

(** A trace is all data, or has a first event that is not. *)
Lemma first_settling_event (evs : list event) :
  Forall is_data evs
  ∨ ∃ pre ev post,
      evs = pre ++ ev :: post ∧ Forall is_data pre ∧ ¬ is_data ev.
Proof.
  induction evs as [| ev evs IH]; [by left |].
  assert (is_data ev ∨ ¬ is_data ev) as [Hev | Hev]
    by (destruct ev; simpl; tauto).
  - destruct IH as [Hall | (pre & ev' & post & -> & Hpre & Hev')].
    + left. by constructor.
    + right. exists (ev :: pre), ev', post.
      split; [done |]. split; [by constructor | done].
  - right. exists [], ev, evs. by repeat split.
Qed.

Lemma exec_error_first (w : world) cmd args cwd pre err post :
  w cmd args cwd = pre ++ ProcError err :: post →
  Forall is_data pre →
  Cmds.exec w cmd args cwd = Rejected (SpawnError err).
Proof.
  intros Hw Hdata. unfold Cmds.exec. rewrite Hw.
  rewrite foldl_app, (handle_data _ pre Hdata). simpl.
  by rewrite settled_stays.
Qed.

(** The three ways a call of [exec] can go. *)
Lemma exec_cases (w : world) cmd args cwd :
  (Forall is_data (w cmd args cwd) ∧ Cmds.exec w cmd args cwd = Pending)
  ∨ (∃ pre err post,
       w cmd args cwd = pre ++ ProcError err :: post
       ∧ Forall is_data pre
       ∧ Cmds.exec w cmd args cwd = Rejected (SpawnError err))
  ∨ (∃ pre code post,
       w cmd args cwd = pre ++ Close code :: post
       ∧ Forall is_data pre
       ∧ Cmds.exec w cmd args cwd =
           Cmds.on_close {| Cmds.stdout := stdout_chunks pre;
                            Cmds.stderr := stderr_chunks pre;
                            Cmds.outcome := Pending |}).
Proof.
  destruct (first_settling_event (w cmd args cwd))
    as [Hall | (pre & ev & post & Hw & Hpre & Hev)].
  - left. split; [done |].
    unfold Cmds.exec. by rewrite (handle_data _ _ Hall).
  - right. destruct ev as [| | err | code]; simpl in Hev; try tauto.
    + left. exists pre, err, post.
      split; [done |]. split; [done |]. by apply (exec_error_first w _ _ _ pre err post).
    + right. exists pre, code, post.
      split; [done |]. split; [done |]. by apply (exec_closed w _ _ _ pre code post).
Qed.

Lemma stderr_chunks_nil_iff (pre : list event) :
  Forall carries_bytes pre →
  stderr_chunks pre = [] ↔ concat (stderr_chunks pre) = [].
Proof.
  intros Hbytes. split.
  - by intros ->.
  - by apply stderr_chunks_bytes.
Qed.

End ExecMore.

(** X5. The promise of [exec] is settled once: events that arrive
    after it is settled change nothing. *)
Theorem exec_settles_once `{rt : Runtime} (w w' : world) cmd args cwd
    (later : list event) :
  w' cmd args cwd = w cmd args cwd ++ later →
  Cmds.exec w cmd args cwd ≠ Pending →
  Cmds.exec w' cmd args cwd = Cmds.exec w cmd args cwd.
Proof.
  intros Hw' Hsettled. unfold Cmds.exec in *.
  rewrite Hw', foldl_app. by apply settled_stays.
Qed.

Lemma exec_settles_once_witness :
  Cmds.exec (rt := ascii_runtime)
    (λ _ _ _, [StdoutData (bytes "ok"); Close (Some 0%Z);
               ProcError (js "kill EPERM"); Close (Some 1%Z)])
    (js "ls") [] None
  = Cmds.exec (rt := ascii_runtime)
      (λ _ _ _, [StdoutData (bytes "ok"); Close (Some 0%Z)]) (js "ls") [] None.
Proof.
  apply (exec_settles_once (rt := ascii_runtime)
           (λ _ _ _, [StdoutData (bytes "ok"); Close (Some 0%Z)])
           (λ _ _ _, [StdoutData (bytes "ok"); Close (Some 0%Z);
                      ProcError (js "kill EPERM"); Close (Some 1%Z)])
           (js "ls") [] None
           [ProcError (js "kill EPERM"); Close (Some 1%Z)]).
  - reflexivity.
  - vm_compute. discriminate.
Defined.

(** X6. The promise of [exec] stays pending exactly when the child
    only ever sends data: it neither closes nor fails. *)
Theorem exec_pending_iff_only_data `{rt : Runtime} (w : world) cmd args cwd :
  Cmds.exec w cmd args cwd = Pending ↔ Forall is_data (w cmd args cwd).
Proof.
  split.
  - intros Hpending.
    destruct (exec_cases w cmd args cwd)
      as [[Hall _] | [(pre & err & post & _ & _ & Hexec)
                     | (pre & code & post & _ & _ & Hexec)]];
      [done | congruence |].
    rewrite Hexec in Hpending. unfold Cmds.on_close in Hpending.
    by case_match.
  - intros Hall. unfold Cmds.exec. by rewrite (handle_data _ _ Hall).
Qed.

(** X7. An ['error'] event that comes before the child closes rejects
    the promise with that error, even if the child had already written
    to its error stream. *)
Theorem exec_error_before_close `{rt : Runtime} (w : world) cmd args cwd
    (pre : list event) (err : jsstring) (post : list event) :
  w cmd args cwd = pre ++ ProcError err :: post →
  Forall is_data pre →
  Cmds.exec w cmd args cwd = Rejected (SpawnError err).
Proof.
  intros Hw Hdata. unfold Cmds.exec. rewrite Hw.
  rewrite foldl_app, (handle_data _ pre Hdata). simpl.
  by rewrite settled_stays.
Qed.

Lemma exec_error_before_close_witness :
  Cmds.exec (rt := ascii_runtime)
    (λ _ _ _, [StderrData (bytes "warning"); ProcError (js "spawn git ENOENT");
               Close (Some (-2)%Z)])
    (js "git") [] None
  = Rejected (SpawnError (js "spawn git ENOENT")).
Proof.
  apply (exec_error_before_close (rt := ascii_runtime) _ _ _ _
           [StderrData (bytes "warning")] (js "spawn git ENOENT")
           [Close (Some (-2)%Z)]).
  - reflexivity.
  - repeat constructor.
Defined.

(** X8. [exec] fulfils only for a child that closed without an
    ['error'] event and without a single chunk on its error stream;
    the lines are then the split of its whole standard output: joined
    by line breaks they give that output back, there is at least one,
    and none holds a line break. *)
Theorem exec_fulfilled_only_clean `{rt : Runtime} (w : world) cmd args cwd
    (lines : list jsstring) :
  Cmds.exec w cmd args cwd = Fulfilled lines →
  (∃ pre code post,
     w cmd args cwd = pre ++ Close code :: post
     ∧ Forall is_data pre
     ∧ stderr_chunks pre = []
     ∧ lines = JS.split chr_newline
                 (Buffer_toString (concat (stdout_chunks pre)))
     ∧ join chr_newline lines
       = Buffer_toString (concat (stdout_chunks pre)))
  ∧ lines ≠ []
  ∧ Forall (λ line, chr_newline ∉ line) lines.
Proof.
  intros Hexec.
  destruct (exec_cases w cmd args cwd)
    as [[_ Hp] | [(pre & err & post & _ & _ & Hr)
                 | (pre & code & post & Hw & Hpre & Hc)]];
    [congruence | congruence |].
  rewrite Hc in Hexec. unfold Cmds.on_close in Hexec. simpl in Hexec.
  destruct (stderr_chunks pre) as [| chunk chunks] eqn:Herr; [| done].
  simpl in Hexec. injection Hexec as <-.
  split; [| split].
  - exists pre, code, post. rewrite Herr, join_split. by repeat split.
  - apply split_not_nil.
  - apply split_pieces_free.
Qed.

Lemma exec_fulfilled_only_clean_witness :
  Cmds.exec (rt := ascii_runtime) (prints ["a.txt"; "b.txt"]%string)
    (js "ls") [] None
  = Fulfilled [js "a.txt"; js "b.txt"; []]
  ∧ [js "a.txt"; js "b.txt"; []] ≠ []
  ∧ Forall (λ line, chr_newline ∉ line) [js "a.txt"; js "b.txt"; []].
Proof.
  assert (Cmds.exec (rt := ascii_runtime) (prints ["a.txt"; "b.txt"]%string)
            (js "ls") [] None
          = Fulfilled [js "a.txt"; js "b.txt"; []]) as Hexec
    by (vm_compute; reflexivity).
  split; [exact Hexec |].
  apply (exec_fulfilled_only_clean (rt := ascii_runtime) _ _ _ _ _ Hexec).
Defined.

(** X9. How the child cuts its output into chunks does not matter:
    two children that write the same bytes to each stream and then
    close give the same result, whatever their exit codes. *)
Theorem exec_chunking_irrelevant `{rt : Runtime} (w w' : world) cmd args cwd
    (pre pre' : list event) (code code' : option Z) (post post' : list event) :
  w cmd args cwd = pre ++ Close code :: post →
  w' cmd args cwd = pre' ++ Close code' :: post' →
  Forall carries_bytes pre →
  Forall carries_bytes pre' →
  concat (stdout_chunks pre) = concat (stdout_chunks pre') →
  concat (stderr_chunks pre) = concat (stderr_chunks pre') →
  Cmds.exec w cmd args cwd = Cmds.exec w' cmd args cwd.
Proof.
  intros Hw Hw' Hpre Hpre' Hout Herr.
  rewrite (exec_closed w cmd args cwd pre code post Hw)
    by by apply carries_bytes_is_data.
  rewrite (exec_closed w' cmd args cwd pre' code' post' Hw')
    by by apply carries_bytes_is_data.
  unfold Cmds.on_close; simpl. rewrite Hout, Herr.
  pose proof (stderr_chunks_nil_iff pre Hpre) as Hnil.
  pose proof (stderr_chunks_nil_iff pre' Hpre') as Hnil'.
  rewrite Herr in Hnil.
  destruct (stderr_chunks pre) as [| c cs], (stderr_chunks pre') as [| c' cs'];
    simpl; try done.
  - destruct Hnil as [Hnil _]. specialize (Hnil eq_refl).
    apply Hnil' in Hnil. done.
  - destruct Hnil' as [Hnil' _]. specialize (Hnil' eq_refl).
    apply Hnil in Hnil'. done.
Qed.

Lemma exec_chunking_irrelevant_witness :
  Cmds.exec (rt := ascii_runtime)
    (λ _ _ _, [StdoutData (bytes "a.t"); StdoutData (bytes "xt");
               Close (Some 0%Z)])
    (js "ls") [] None
  = Cmds.exec (rt := ascii_runtime)
      (λ _ _ _, [StdoutData (bytes "a.txt"); Close (Some 3%Z)])
      (js "ls") [] None.
Proof.
  apply (exec_chunking_irrelevant (rt := ascii_runtime) _ _ _ _ _
           [StdoutData (bytes "a.t"); StdoutData (bytes "xt")]
           [StdoutData (bytes "a.txt")] (Some 0%Z) (Some 3%Z) [] []);
    try reflexivity;
    repeat constructor; discriminate.
Defined.

(** ** The git source, continued *)

Lemma diff_entry_no_tab (changes : obj) (entry : jsstring) :
  chr_tab ∉ entry → GitSource.diff_entry changes entry = inl TypeError.
Proof.
  intros Hfree. unfold GitSource.diff_entry.
  by rewrite split_free.
Qed.

Lemma diff_entry_tab (changes : obj) (entry : jsstring) :
  chr_tab ∈ entry → ∃ changes', GitSource.diff_entry changes entry = inr changes'.
Proof.
  intros Htab. unfold GitSource.diff_entry.
  pose proof (length_split chr_tab entry) as Hlen.
  destruct (filter (λ c, c = chr_tab) entry) as [| t ts] eqn:Hfilter.
  { assert (chr_tab ∈ filter (λ c, c = chr_tab) entry) as Hin
      by (by apply list_elem_of_filter).
    rewrite Hfilter in Hin. by apply elem_of_nil in Hin. }
  destruct (JS.split chr_tab entry) as [| code [| from rest]];
    simpl in Hlen; try lia.
  simpl. case_bool_decide; eauto.
Qed.

Lemma diff_entries_tabs (entries : list jsstring) (changes : obj) :
  Forall (λ entry, chr_tab ∈ entry) entries →
  ∃ changes', GitSource.diff_entries entries changes = inr changes'.
Proof.
  intros Hall. revert changes.
  induction Hall as [| entry entries Htab _ IH]; intros changes; simpl.
  - eauto.
  - destruct (diff_entry_tab changes entry Htab) as [changes' ->].
    apply IH.
Qed.

Lemma diff_entries_no_tab (entries : list jsstring) (changes : obj) :
  Exists (λ entry, chr_tab ∉ entry) entries →
  GitSource.diff_entries entries changes = inl TypeError.
Proof.
  intros Hsome. revert changes.
  induction Hsome as [entry entries Hfree | entry entries _ IH];
    intros changes; simpl.
  - by rewrite diff_entry_no_tab.
  - destruct (decide (chr_tab ∈ entry)) as [Htab | Hfree].
    + destruct (diff_entry_tab changes entry Htab) as [changes' ->].
      apply IH.
    + by rewrite diff_entry_no_tab.
Qed.

Lemma nonempty_not_nil (s : jsstring) : nonempty s ↔ s ≠ [].
Proof.
  destruct s; unfold nonempty, JS.length; simpl; split; (done || lia).
Qed.

(** X10. In diff mode one non-empty output line without a tab makes
    the whole query fail with a [TypeError], whatever the other lines
    are; when every non-empty line has a tab the query succeeds. *)
Theorem diff_line_without_tab_rejects `{rt : Runtime} (path branch : jsstring)
    (w : world) (since : jsstring) (entries : list jsstring) :
  Cmds.exec w (js "git") [js "diff"; js "--name-status"; since; branch]
    (Some path)
  = Fulfilled entries →
  (Exists (λ entry, entry ≠ [] ∧ chr_tab ∉ entry) entries →
   GitSource.getChangesSince path branch w since = Rejected TypeError)
  ∧ (Forall (λ entry, entry = [] ∨ chr_tab ∈ entry) entries →
     ∃ changes,
       GitSource.getChangesSince path branch w since = Fulfilled changes).
Proof.
  intros Hexec. unfold GitSource.getChangesSince. rewrite Hexec. split.
  - intros Hbad. rewrite diff_entries_no_tab; [done |].
    apply Exists_exists in Hbad as (entry & Hin & Hne & Hfree).
    apply Exists_exists. exists entry. split; [| done].
    apply list_elem_of_filter. by rewrite nonempty_not_nil.
  - intros Hgood.
    destruct (diff_entries_tabs (filter nonempty entries) ∅) as [changes ->].
    + apply Forall_forall. intros entry Hin.
      apply list_elem_of_filter in Hin as [Hne Hin].
      rewrite Forall_forall in Hgood.
      destruct (Hgood entry Hin) as [-> | Htab]; [| done].
      by apply nonempty_not_nil in Hne.
    + eauto.
Qed.

Lemma diff_line_without_tab_rejects_witness :
  Cmds.exec (rt := ascii_runtime)
    (emits [diff_line [js "M"; js "a.txt"]; js "M a.txt"])
    (js "git") [js "diff"; js "--name-status"; js "HEAD~1"; js "master"]
    (Some (js "/repo"))
  = Fulfilled [diff_line [js "M"; js "a.txt"];
               js "M a.txt"; []]
  ∧ GitSource.getChangesSince (rt := ascii_runtime) (js "/repo") (js "master")
      (emits [diff_line [js "M"; js "a.txt"];
              js "M a.txt"])
      (js "HEAD~1")
    = Rejected TypeError.
Proof.
  assert (Cmds.exec (rt := ascii_runtime)
            (emits [diff_line [js "M"; js "a.txt"];
                    js "M a.txt"])
            (js "git") [js "diff"; js "--name-status"; js "HEAD~1"; js "master"]
            (Some (js "/repo"))
          = Fulfilled [diff_line [js "M"; js "a.txt"];
                       js "M a.txt"; []]) as Hexec
    by (vm_compute; reflexivity).
  split; [exact Hexec |].
  apply (diff_line_without_tab_rejects (rt := ascii_runtime) _ _ _ _ _ Hexec).
  apply Exists_cons_tl, Exists_cons_hd. split; [discriminate |].
  intros Hin. apply list_elem_of_In in Hin. vm_compute in Hin.
  repeat (destruct Hin as [Hin | Hin]; [discriminate |]). exact Hin.
Defined.

(** X11. A rename entry that has no third field still sets the key
    ["undefined"] to true, besides setting the old name to false (if it
    is not [__proto__]); no other key changes. *)
Theorem rename_without_target (changes : obj) (code from : jsstring) :
  chr_tab ∉ code → chr_tab ∉ from →
  code !! 0%nat = Some 82 →
  ∃ changes',
    GitSource.diff_entry changes (diff_line [code; from]) = inr changes'
    ∧ changes' !! js "undefined" = Some true
    ∧ (correctExtendedChars from ≠ js "__proto__" →
       correctExtendedChars from ≠ js "undefined" →
       changes' !! correctExtendedChars from = Some false)
    ∧ (∀ k, k ≠ js "undefined" → k ≠ correctExtendedChars from →
            changes' !! k = changes !! k).
Proof.
  intros Hcode Hfrom HR. unfold GitSource.diff_entry, diff_line.
  rewrite split_join by (done || by repeat constructor).
  simpl. rewrite bool_decide_eq_true_2 by done.
  eexists. split; [reflexivity |]. split; [| split].
  - by apply lookup_set_property_eq.
  - intros Hproto Hundef.
    rewrite lookup_set_property_ne by done.
    by apply lookup_set_property_eq.
  - intros k Hk Hk'. by rewrite !lookup_set_property_ne.
Qed.

Lemma rename_without_target_witness :
  ∃ changes',
    GitSource.diff_entry ∅ (diff_line [js "R100"; js "old.txt"]) = inr changes'
    ∧ changes' !! js "undefined" = Some true
    ∧ (correctExtendedChars (js "old.txt") ≠ js "__proto__" →
       correctExtendedChars (js "old.txt") ≠ js "undefined" →
       changes' !! correctExtendedChars (js "old.txt") = Some false)
    ∧ (∀ k, k ≠ js "undefined" → k ≠ correctExtendedChars (js "old.txt") →
            changes' !! k = (∅ : obj) !! k).
Proof.
  apply rename_without_target.
  - intros Hin. apply list_elem_of_In in Hin. vm_compute in Hin.
    repeat (destruct Hin as [Hin | Hin]; [discriminate |]). exact Hin.
  - intros Hin. apply list_elem_of_In in Hin. vm_compute in Hin.
    repeat (destruct Hin as [Hin | Hin]; [discriminate |]). exact Hin.
  - reflexivity.
Defined.

(** X12. The listing does not depend on the order of the output lines
    nor on repetitions: two outputs with the same normalised non-empty
    lines give the same map. *)
Theorem listing_order_insensitive `{rt : Runtime} (path branch : jsstring)
    (w w' : world) (files files' : list jsstring) :
  Cmds.exec w (js "git")
    [js "ls-tree"; js "-r"; js "--name-only"; js "--full-tree"; branch]
    (Some path) = Fulfilled files →
  Cmds.exec w' (js "git")
    [js "ls-tree"; js "-r"; js "--name-only"; js "--full-tree"; branch]
    (Some path) = Fulfilled files' →
  (∀ k, k ∈ correctExtendedChars <$> filter nonempty files
        ↔ k ∈ correctExtendedChars <$> filter nonempty files') →
  GitSource.listActive path branch w = GitSource.listActive path branch w'.
Proof.
  intros Hw Hw' Hsame. unfold GitSource.listActive. rewrite Hw, Hw'.
  f_equal. apply map_eq. intros k.
  rewrite !(lookup_mark_all GitSource.mark_active) by done.
  destruct (decide (k ∈ correctExtendedChars <$> filter nonempty files
                    ∧ k ≠ js "__proto__")) as [[Hin Hk] | Hnin].
  - rewrite decide_True; [done |]. split; [by apply Hsame | done].
  - rewrite decide_False; [done |].
    intros [Hin Hk]. apply Hnin. split; [by apply Hsame | done].
Qed.

Lemma listing_order_insensitive_witness :
  GitSource.listActive (rt := ascii_runtime) (js "/repo") (js "master")
    (prints ["a.txt"; "b.txt"]%string)
  = GitSource.listActive (rt := ascii_runtime) (js "/repo") (js "master")
      (prints ["b.txt"; "a.txt"; "b.txt"]%string).
Proof.
  apply (listing_order_insensitive (rt := ascii_runtime) _ _ _ _
           [js "a.txt"; js "b.txt"; []]
           [js "b.txt"; js "a.txt"; js "b.txt"; []]).
  - vm_compute. reflexivity.
  - vm_compute. reflexivity.
  - intros k.
    change (correctExtendedChars
              <$> filter nonempty [js "a.txt"; js "b.txt"; []])
      with [js "a.txt"; js "b.txt"].
    change (correctExtendedChars
              <$> filter nonempty [js "b.txt"; js "a.txt"; js "b.txt"; []])
      with [js "b.txt"; js "a.txt"; js "b.txt"].
    rewrite !elem_of_cons, !elem_of_nil. tauto.
Defined.

(** X13. A git command that prints nothing and closes gives the empty
    map, with or without [since] (the platform decodes the empty
    buffer to the empty string). *)
Theorem no_output_empty_map `{rt : Runtime} (path branch : jsstring)
    (w : world) (since : option jsstring) (code : option Z)
    (post : list event) :
  Buffer_toString [] = [] →
  (∀ args, w (js "git") args (Some path) = Close code :: post) →
  GitSource.getChanges path branch w since = Fulfilled ∅.
Proof.
  intros Hempty Hw.
  assert (∀ args, Cmds.exec w (js "git") args (Some path) = Fulfilled [[]])
    as Hexec.
  { intros args.
    rewrite (exec_closed w _ args _ [] code post (Hw args)) by constructor.
    unfold Cmds.on_close. simpl. by rewrite Hempty. }
  unfold GitSource.getChanges, GitSource.getChangesSince,
    GitSource.listActive.
  destruct since as [[| c since] |]; by rewrite Hexec.
Qed.

Lemma no_output_empty_map_witness :
  GitSource.getChanges (rt := ascii_runtime) (js "/repo") (js "master")
    (λ _ _ _, [Close (Some 0%Z)]) (Some (js "HEAD~1"))
  = Fulfilled ∅.
Proof.
  apply (no_output_empty_map (rt := ascii_runtime) _ _ _ _ (Some 0%Z) []).
  - reflexivity.
  - reflexivity.
Defined.

Lemma diff_entries_app (before after : list jsstring) (changes : obj) :
  GitSource.diff_entries (before ++ after) changes =
    match GitSource.diff_entries before changes with
    | inl err => inl err
    | inr changes' => GitSource.diff_entries after changes'
    end.
Proof.
  revert changes. induction before as [| entry before IH]; intros changes;
    simpl; [done |].
  by destruct (GitSource.diff_entry changes entry).
Qed.

Lemma filter_nonempty_blank (lines : list jsstring) :
  Forall (λ line, line = []) lines → filter nonempty lines = [].
Proof.
  intros Hblank. induction Hblank as [| line lines Hline _ IH]; [done |].
  subst line. rewrite filter_cons_False; [exact IH |].
  rewrite nonempty_not_nil. by intros Hne.
Qed.

(** The query on an output with one more line is the step of that
    line on the result for the lines before. *)
Lemma getChangesSince_snoc `{rt : Runtime} (path branch : jsstring)
    (w w' : world) (since : jsstring) (lines lines' : list jsstring)
    (line : jsstring) (earlier : obj) :
  Cmds.exec w (js "git") [js "diff"; js "--name-status"; since; branch]
    (Some path) = Fulfilled lines →
  Cmds.exec w' (js "git") [js "diff"; js "--name-status"; since; branch]
    (Some path) = Fulfilled lines' →
  filter nonempty lines' = filter nonempty lines ++ [line] →
  GitSource.getChangesSince path branch w since = Fulfilled earlier →
  GitSource.getChangesSince path branch w' since =
    match GitSource.diff_entry earlier line with
    | inl err => Rejected err
    | inr changes => Fulfilled changes
    end.
Proof.
  intros Hw Hw' Hmore. unfold GitSource.getChangesSince.
  rewrite Hw, Hw', Hmore, diff_entries_app.
  destruct (GitSource.diff_entries (filter nonempty lines) ∅)
    as [err | changes]; [done |].
  intros [= ->]. simpl.
  by destruct (GitSource.diff_entry earlier line).
Qed.

(** X14. In diff mode the lines are applied in order onto one map.
    When the output gains a non-empty line at its end, the result is
    the step of that line on the result for the lines before it; for a
    line that is not a rename, its path (if not [__proto__]) takes the
    status of that line, overriding what earlier lines said, and every
    other key keeps what the earlier lines gave it. *)
Theorem later_line_decides `{rt : Runtime} (path branch : jsstring)
    (w w' : world) (since : jsstring) (lines lines' : list jsstring)
    (earlier : obj) (code from : jsstring) (rest : list jsstring) :
  Cmds.exec w (js "git") [js "diff"; js "--name-status"; since; branch]
    (Some path) = Fulfilled lines →
  Cmds.exec w' (js "git") [js "diff"; js "--name-status"; since; branch]
    (Some path) = Fulfilled lines' →
  filter nonempty lines'
  = filter nonempty lines ++ [diff_line (code :: from :: rest)] →
  GitSource.getChangesSince path branch w since = Fulfilled earlier →
  Forall (λ field, chr_tab ∉ field) (code :: from :: rest) →
  code !! 0%nat ≠ Some 82 →
  correctExtendedChars from ≠ js "__proto__" →
  GitSource.getChangesSince path branch w' since
  = match GitSource.diff_entry earlier (diff_line (code :: from :: rest)) with
    | inl err => Rejected err
    | inr changes => Fulfilled changes
    end
  ∧ ∃ changes,
      GitSource.getChangesSince path branch w' since = Fulfilled changes
      ∧ changes !! correctExtendedChars from
        = Some (negb (bool_decide (code = js "D")))
      ∧ ∀ k, k ≠ correctExtendedChars from → changes !! k = earlier !! k.
Proof.
  intros Hw Hw' Hmore Hearlier Hfree HnR Hproto.
  rewrite (getChangesSince_snoc path branch w w' since lines lines' _ earlier)
    by done.
  split; [done |].
  unfold GitSource.diff_entry, diff_line.
  rewrite split_join by done. simpl.
  rewrite bool_decide_eq_false_2 by done.
  eexists. split; [reflexivity |]. split.
  - by apply lookup_set_property_eq.
  - intros k Hk. by apply lookup_set_property_ne.
Qed.

Lemma later_line_decides_witness :
  GitSource.getChangesSince (rt := ascii_runtime) (js "/repo") (js "master")
    (emits [diff_line [js "A"; js "a.txt"]; diff_line [js "M"; js "b.txt"];
            diff_line [js "D"; js "a.txt"]])
    (js "HEAD~1")
  = match GitSource.diff_entry {[ js "a.txt" := true; js "b.txt" := true ]}
            (diff_line [js "D"; js "a.txt"]) with
    | inl err => Rejected err
    | inr changes => Fulfilled changes
    end
  ∧ ∃ changes,
      GitSource.getChangesSince (rt := ascii_runtime) (js "/repo") (js "master")
        (emits [diff_line [js "A"; js "a.txt"]; diff_line [js "M"; js "b.txt"];
                diff_line [js "D"; js "a.txt"]])
        (js "HEAD~1")
      = Fulfilled changes
      ∧ changes !! correctExtendedChars (js "a.txt")
        = Some (negb (bool_decide (js "D" = js "D")))
      ∧ ∀ k, k ≠ correctExtendedChars (js "a.txt") →
             changes !! k
             = ({[ js "a.txt" := true; js "b.txt" := true ]} : obj) !! k.
Proof.
  apply (later_line_decides (rt := ascii_runtime) (js "/repo") (js "master")
           (emits [diff_line [js "A"; js "a.txt"];
                   diff_line [js "M"; js "b.txt"]])
           _ (js "HEAD~1")
           [diff_line [js "A"; js "a.txt"]; diff_line [js "M"; js "b.txt"]; []]
           [diff_line [js "A"; js "a.txt"]; diff_line [js "M"; js "b.txt"];
            diff_line [js "D"; js "a.txt"]; []]
           _ (js "D") (js "a.txt") []).
  - vm_compute. reflexivity.
  - vm_compute. reflexivity.
  - vm_compute. reflexivity.
  - vm_compute. reflexivity.
  - apply tab_free_fields. reflexivity.
  - vm_compute. discriminate.
  - vm_compute. discriminate.
Defined.



(** ** The filesystem source, continued *)

(** X15. What a successful call returns, entry by entry: an enumerated
    path other than [__proto__] is true; of the others, a path that was
    true is false; nothing else is in the map. So the true entries are
    exactly the enumerated paths other than [__proto__], and the map is
    also the new [tracked]. *)
Theorem rescan_result `{rt : Runtime} (path : jsstring) (w : world)
    (l : list jsstring) (tracked : obj) :
  enumerated path w = Some l →
  ∃ m,
    FileSource.getChanges path w tracked = (Fulfilled m, m)
    ∧ (∀ k, m !! k = if decide (k ∈ l ∧ k ≠ js "__proto__") then Some true
                     else match tracked !! k with
                          | Some true => Some false
                          | _ => None
                          end)
    ∧ (∀ k, m !! k = Some true ↔ k ∈ l ∧ k ≠ js "__proto__")
    ∧ (∀ k, m !! k = Some false ↔
            ¬ (k ∈ l ∧ k ≠ js "__proto__") ∧ tracked !! k = Some true).
Proof.
  intros Hscan. eexists. split; [by apply getChanges_enumerated |].
  split; [intros k; apply lookup_rescan |]. split; intros k.
  - rewrite lookup_rescan. case_decide; [done |].
    split; [| done]. by destruct (tracked !! k) as [[] |].
  - rewrite lookup_rescan. case_decide.
    + split; [done | by intros [? _]].
    + destruct (tracked !! k) as [[] |]; split; try done; by intros [_ ?].
Qed.

Lemma rescan_result_witness :
  enumerated (rt := ascii_runtime) (js "/srv") (prints ["/srv/a.txt"]%string)
  = Some [js "a.txt"]
  ∧ FileSource.getChanges (rt := ascii_runtime) (js "/srv")
      (prints ["/srv/a.txt"]%string)
      {[ js "a.txt" := true; js "b.txt" := true; js "c.txt" := false ]}
    = (Fulfilled {[ js "a.txt" := true; js "b.txt" := false ]},
       {[ js "a.txt" := true; js "b.txt" := false ]}).
Proof.
  assert (enumerated (rt := ascii_runtime) (js "/srv")
            (prints ["/srv/a.txt"]%string) = Some [js "a.txt"]) as Hscan
    by (vm_compute; reflexivity).
  split; [exact Hscan |].
  destruct (rescan_result (rt := ascii_runtime) (js "/srv")
              (prints ["/srv/a.txt"]%string) [js "a.txt"]
              {[ js "a.txt" := true; js "b.txt" := true; js "c.txt" := false ]}
              Hscan) as (m & Hm & _).
  rewrite Hm. vm_compute in Hm. injection Hm as <- _.
  vm_compute. reflexivity.
Defined.

(** X16. A deletion can go unreported. If a call fails while a path is
    tracked as true, and the next call succeeds without enumerating
    the path, that call returns a map without the path: the value
    false is never returned for it. *)
Theorem failed_scan_loses_deletion `{rt : Runtime} (path : jsstring)
    (w1 w2 : world) (reason : failure) (l2 : list jsstring)
    (tracked : obj) (p : jsstring) :
  Cmds.exec w1 (js "find") [path; js "-type"; js "f"] None = Rejected reason →
  enumerated path w2 = Some l2 →
  tracked !! p = Some true →
  p ∉ l2 →
  ∃ m2,
    FileSource.queries path [w1; w2] tracked
      = ([Rejected reason; Fulfilled m2], m2)
    ∧ m2 !! p = None.
Proof.
  intros Hfail Hscan Htrue Hgone. eexists. split.
  - simpl. rewrite (getChanges_rejected path w1 reason _ Hfail).
    rewrite (getChanges_enumerated path w2 l2 _ Hscan). reflexivity.
  - rewrite lookup_rescan, decide_False by (by intros [? _]).
    by rewrite lookup_prepare, Htrue.
Qed.

Lemma failed_scan_loses_deletion_witness :
  ∃ m2,
    FileSource.queries (rt := ascii_runtime) (js "/srv")
      [complains "find: /srv/x: Permission denied" 1;
       prints ["/srv/a.txt"]%string]
      {[ js "a.txt" := true; js "b.txt" := true ]}
    = ([Rejected (StderrText (js "find: /srv/x: Permission denied"));
        Fulfilled m2], m2)
    ∧ m2 !! js "b.txt" = None.
Proof.
  apply (failed_scan_loses_deletion (rt := ascii_runtime) (js "/srv") _ _ _
           [js "a.txt"]).
  - vm_compute. reflexivity.
  - vm_compute. reflexivity.
  - vm_compute. reflexivity.
  - intros Hin. apply list_elem_of_In in Hin. vm_compute in Hin.
    repeat (destruct Hin as [Hin | Hin]; [discriminate |]). exact Hin.
Defined.

(** X17. After one failed call every tracked entry is false, and after
    two failed calls in a row nothing is tracked any more. *)
Theorem failed_scans_clear_tracked `{rt : Runtime} (path : jsstring)
    (w1 w2 : world) (r1 r2 : failure) (tracked : obj) :
  Cmds.exec w1 (js "find") [path; js "-type"; js "f"] None = Rejected r1 →
  Cmds.exec w2 (js "find") [path; js "-type"; js "f"] None = Rejected r2 →
  (∀ p v, tracked_after path [w1] tracked !! p = Some v → v = false)
  ∧ tracked_after path [w1; w2] tracked = ∅.
Proof.
  intros H1 H2. unfold tracked_after. simpl.
  rewrite (getChanges_rejected path w1 r1 _ H1).
  rewrite (getChanges_rejected path w2 r2 _ H2). simpl. split.
  - intros p v. rewrite lookup_prepare.
    destruct (tracked !! p) as [[] |]; congruence.
  - apply map_eq. intros p.
    rewrite lookup_prepare, lookup_prepare, lookup_empty.
    by destruct (tracked !! p) as [[] |].
Qed.

Lemma failed_scans_clear_tracked_witness :
  tracked_after (rt := ascii_runtime) (js "/srv")
    [complains "find: failed" 1; complains "find: failed" 1]
    {[ js "a.txt" := true; js "b.txt" := false ]}
  = ∅.
Proof.
  apply (failed_scans_clear_tracked (rt := ascii_runtime) (js "/srv") _ _
           (StderrText (js "find: failed")) (StderrText (js "find: failed")));
    vm_compute; reflexivity.
Defined.

(** ** The file commands of [lib/cmds.js] *)

Lemma is_root_spec (path : jsstring) :
  Commands.is_root path = true ↔ path = js "." ∨ path = js "/".
Proof.
  unfold Commands.is_root.
  rewrite orb_true_iff, !bool_decide_eq_true. tauto.
Qed.

Lemma existsb_is_root (paths : list jsstring) :
  existsb Commands.is_root paths = true
  ↔ Exists (λ p, p = js "." ∨ p = js "/") paths.
Proof.
  rewrite existsb_exists, Exists_exists. split.
  - intros (p & Hin & Hroot). exists p.
    split; [by apply list_elem_of_In | by apply is_root_spec].
  - intros (p & Hin & Hroot). exists p.
    split; [by apply list_elem_of_In | by apply is_root_spec].
Qed.

Section CommandFacts.
Context `{rt : Runtime}.

(** What one [exec] does to the machine. *)
Lemma exec_machine cmd args cwd (σ : os) :
  commands (Commands.exec cmd args cwd σ).2
  = commands σ ++ [{| inv_cmd := cmd; inv_args := args; inv_cwd := cwd |}]
  ∧ fs_stat (Commands.exec cmd args cwd σ).2 = fs_stat σ
  ∧ script (Commands.exec cmd args cwd σ).2 = tail (script σ).
Proof. unfold Commands.exec. by destruct (script σ). Qed.

Lemma foldl_name_clause (acc patterns : list jsstring) :
  acc ≠ [] →
  foldl Commands.name_clause acc patterns
  = acc ++ concat ((λ p, [js "-or"; js "-name"; p]) <$> patterns).
Proof.
  revert acc. induction patterns as [| p patterns IH]; intros acc Hacc; simpl.
  - by rewrite app_nil_r.
  - rewrite IH.
    + unfold Commands.name_clause. destruct acc; [done |]. simpl.
      by rewrite <- !app_assoc.
    + unfold Commands.name_clause. by destruct acc.
Qed.

Lemma foldl_name_clause_nil (patterns : list jsstring) :
  foldl Commands.name_clause [] patterns = name_tests patterns.
Proof.
  destruct patterns as [| p patterns]; [done |]. simpl.
  by rewrite foldl_name_clause.
Qed.

Lemma findrm_kept (patterns : list jsstring) :
  List.filter (λ p, negb (bool_decide (p = js "/"))
                    && negb (bool_decide (p = js "."))) patterns
  = filter (λ p, p ≠ js "/" ∧ p ≠ js ".") patterns.
Proof.
  induction patterns as [| p patterns IH]; [done |]. simpl.
  destruct (decide (p = js "/")) as [-> | Hslash].
  - rewrite filter_cons_False by tauto. done.
  - destruct (decide (p = js ".")) as [-> | Hdot].
    + rewrite filter_cons_False by tauto. done.
    + rewrite filter_cons_True by done.
      rewrite !bool_decide_eq_false_2 by done. simpl. by rewrite IH.
Qed.

End CommandFacts.

(** X18. [rm] on one path does what [rmdirs] does on that path. *)
Theorem rm_same_as_rmdirs `{rt : Runtime} (path : jsstring) (σ : os) :
  Commands.rm path σ = Commands.rmdirs (inl path) σ.
Proof.
  unfold Commands.rm, Commands.rmdirs. simpl.
  by rewrite orb_false_r.
Qed.

(** X19. [rmdirs] refuses as a whole when one of the paths is ["."] or
    ["/"]: it throws before any command is spawned and leaves the
    machine as it was. With no such path it spawns one command,
    [rm -Rf] followed by all the paths, in no particular directory. *)
Theorem rmdirs_root_guard `{rt : Runtime} (paths : list jsstring) (σ : os) :
  (Exists (λ p, p = js "." ∨ p = js "/") paths →
   Commands.rmdirs (inr paths) σ
   = (Throws (ErrorMsg (js "rm root path panic")), σ))
  ∧ (Forall (λ p, p ≠ js "." ∧ p ≠ js "/") paths →
     ∃ p σ',
       Commands.rmdirs (inr paths) σ = (Returns p, σ')
       ∧ commands σ' = commands σ ++ [rm_invocation paths]).
Proof.
  unfold Commands.rmdirs. split.
  - intros Hroot. apply existsb_is_root in Hroot. by rewrite Hroot.
  - intros Hsafe.
    destruct (existsb Commands.is_root paths) eqn:Hroot.
    + apply existsb_is_root, Exists_exists in Hroot as (p & Hin & Hp).
      rewrite Forall_forall in Hsafe. specialize (Hsafe p Hin). tauto.
    + pose proof (exec_machine (js "rm") ([js "-Rf"] ++ paths) None σ)
        as (Hcmds & _).
      destruct (Commands.exec (js "rm") ([js "-Rf"] ++ paths) None σ)
        as [p σ'].
      by exists p, σ'.
Qed.

Lemma rmdirs_root_guard_witness :
  Commands.rmdirs (rt := ascii_runtime) (inr [js "build"; js "/"])
    (machine [prints []] (λ _, None))
  = (Throws (ErrorMsg (js "rm root path panic")),
     machine [prints []] (λ _, None))
  ∧ ∃ p σ',
      Commands.rmdirs (rt := ascii_runtime) (inr [js "build"; js "dist"])
        (machine [prints []] (λ _, None))
      = (Returns p, σ')
      ∧ commands σ'
        = commands (machine [prints []] (λ _, None))
            ++ [rm_invocation [js "build"; js "dist"]].
Proof.
  split.
  - apply (rmdirs_root_guard (rt := ascii_runtime)).
    apply Exists_cons_tl, Exists_cons_hd. by right.
  - apply (rmdirs_root_guard (rt := ascii_runtime)).
    repeat (apply Forall_cons; split; [split; discriminate |]).
    apply Forall_nil_2.
Defined.

(** X20. [findrm] spawns one [find] whose arguments are the name tests
    of the patterns other than ["/"] and ["."], in the order given and
    joined by [-or], followed by [-d 1 -exec rm -Rf {} ;]. *)
Theorem findrm_arguments `{rt : Runtime} (patterns : list jsstring) (σ : os) :
  commands (Commands.findrm patterns σ).2
  = commands σ
      ++ [{| inv_cmd := js "find";
             inv_args :=
               name_tests (filter (λ p, p ≠ js "/" ∧ p ≠ js ".") patterns)
                 ++ Commands.findrm_tail;
             inv_cwd := None |}].
Proof.
  unfold Commands.findrm.
  rewrite foldl_name_clause_nil, findrm_kept.
  apply exec_machine.
Qed.

(** X21. When no pattern is left, because none was given or all were
    ["/"] or ["."], [findrm] still spawns its [find], with no name test
    at all: the arguments are just [-d 1 -exec rm -Rf {} ;]. *)
Theorem findrm_without_patterns `{rt : Runtime} (patterns : list jsstring)
    (σ : os) :
  Forall (λ p, p = js "/" ∨ p = js ".") patterns →
  commands (Commands.findrm patterns σ).2
  = commands σ
      ++ [{| inv_cmd := js "find";
             inv_args := [js "-d"; js "1"; js "-exec"; js "rm"; js "-Rf";
                          js "{}"; js ";"];
             inv_cwd := None |}].
Proof.
  intros Hall. unfold Commands.findrm.
  rewrite foldl_name_clause_nil, findrm_kept.
  assert (filter (λ p, p ≠ js "/" ∧ p ≠ js ".") patterns = []) as ->.
  { induction Hall as [| p patterns Hp _ IH]; [done |].
    rewrite filter_cons_False by tauto. exact IH. }
  apply exec_machine.
Qed.

Lemma findrm_without_patterns_witness :
  commands (Commands.findrm (rt := ascii_runtime) [js "."]
              (machine [prints []] (λ _, None))).2
  = commands (machine [prints []] (λ _, None))
      ++ [{| inv_cmd := js "find";
             inv_args := [js "-d"; js "1"; js "-exec"; js "rm"; js "-Rf";
                          js "{}"; js ";"];
             inv_cwd := None |}].
Proof.
  apply (findrm_without_patterns (rt := ascii_runtime)).
  apply Forall_cons. split; [by right | apply Forall_nil_2].
Defined.

(** Unfolds [ensureDir] and splits on everything it inspects. *)
Ltac ensureDir_cases :=
  unfold Commands.ensureDir, Commands.ensureDir_catch, Commands.rm,
    Commands.mkdir, Commands.exec;
  repeat (simpl;
          match goal with
          | |- context [match ?x with _ => _ end] => destruct x eqn:?
          | |- context [if ?b then _ else _] => destruct b eqn:?
          end);
  simpl.

(** X22. [ensureDir] returns true exactly when [exists( path, true )]
    is true, that is when the path is already a directory, and then it
    spawns nothing and leaves the machine as it was. *)
Theorem ensureDir_true_iff_directory `{rt : Runtime} (path : jsstring)
    (σ : os) :
  ((Commands.ensureDir path σ).1 = Fulfilled (Some true)
   ↔ Commands.exists_ path true σ = Fulfilled true)
  ∧ (Commands.exists_ path true σ = Fulfilled true →
     Commands.ensureDir path σ = (Fulfilled (Some true), σ)).
Proof.
  unfold Commands.exists_. split; [split |].
  - ensureDir_cases; congruence.
  - intros Hdir. unfold Commands.ensureDir.
    destruct (fs_stat σ path) as [[[]] |]; simpl in *; congruence.
  - intros Hdir. unfold Commands.ensureDir.
    destruct (fs_stat σ path) as [[[]] |]; simpl in *; congruence.
Qed.

Lemma exec_step `{rt : Runtime} cmd args cwd (σ : os) :
  ∃ p σ1,
    Commands.exec cmd args cwd σ = (p, σ1)
    ∧ commands σ1
      = commands σ ++ [{| inv_cmd := cmd; inv_args := args; inv_cwd := cwd |}]
    ∧ fs_stat σ1 = fs_stat σ.
Proof.
  pose proof (exec_machine cmd args cwd σ) as (Hc & Hs & _).
  destruct (Commands.exec cmd args cwd σ) as [p σ1]. by exists p, σ1.
Qed.

Lemma ensureDir_catch_step `{rt : Runtime} (path : jsstring) (σ : os) :
  ∃ r σ1,
    Commands.ensureDir_catch path σ = (r, σ1)
    ∧ commands σ1 = commands σ ++ [mkdir_invocation path]
    ∧ ∀ b, r ≠ Fulfilled (Some b).
Proof.
  unfold Commands.ensureDir_catch, Commands.mkdir.
  destruct (exec_step (js "mkdir") [js "-p"; path] None σ)
    as (made & σ1 & -> & Hc & _).
  destruct made; eexists _, _; (split; [reflexivity |]); by split.
Qed.

(** The commands [ensureDir] can leave behind, with the result that
    goes with each. *)
Lemma ensureDir_shape `{rt : Runtime} (path : jsstring) (σ : os) :
  ∃ new,
    commands (Commands.ensureDir path σ).2 = commands σ ++ new
    ∧ ((new = []
        ∧ Commands.ensureDir path σ = (Fulfilled (Some true), σ)
        ∧ ∃ st, fs_stat σ path = Some st ∧ isDirectory st = true)
       ∨ (new = [mkdir_invocation path]
          ∧ (fs_stat σ path = None
             ∨ ∃ st, fs_stat σ path = Some st ∧ isDirectory st = false
                     ∧ Commands.is_root path = true)
          ∧ ∀ b, (Commands.ensureDir path σ).1 ≠ Fulfilled (Some b))
       ∨ ((new = [rm_invocation [path]] ∨
           new = [rm_invocation [path]; mkdir_invocation path] ∨
           new = [rm_invocation [path]; mkdir_invocation path;
                  mkdir_invocation path])
          ∧ (∃ st, fs_stat σ path = Some st ∧ isDirectory st = false)
          ∧ Commands.is_root path = false
          ∧ (∀ b, (Commands.ensureDir path σ).1 ≠ Fulfilled (Some b))
          ∧ ((Commands.ensureDir path σ).1 = Fulfilled None →
             new ≠ [rm_invocation [path]]))).
Proof.
  unfold Commands.ensureDir.
  destruct (fs_stat σ path) as [[dir] |] eqn:Hstat; simpl.
  2: { destruct (ensureDir_catch_step path σ) as (r & σ1 & -> & Hc & Hr).
       exists [mkdir_invocation path]. split; [done |].
       right; left. split; [done |]. split; [by left | done]. }
  destruct dir.
  { exists []. split; [by rewrite app_nil_r |]. left.
    split; [done |]. split; [done |]. by eexists. }
  unfold Commands.rm.
  destruct (Commands.is_root path) eqn:Hroot.
  { destruct (ensureDir_catch_step path σ) as (r & σ1 & -> & Hc & Hr).
    exists [mkdir_invocation path]. split; [done |].
    right; left. split; [done |]. split; [| done].
    right. by eexists. }
  destruct (exec_step (js "rm") [js "-Rf"; path] None σ)
    as (removed & σ1 & -> & Hc1 & _).
  assert (∃ st, Some {| isDirectory := false |} = Some st
                ∧ isDirectory st = false) as Hfile by (by eexists).
  destruct removed as [| lines | reason].
  - exists [rm_invocation [path]]. split; [done |]. right; right.
    split; [by left |]. by repeat split.
  - unfold Commands.mkdir.
    destruct (exec_step (js "mkdir") [js "-p"; path] None σ1)
      as (made & σ2 & -> & Hc2 & _).
    destruct made as [| lines' | reason'].
    + exists [rm_invocation [path]; mkdir_invocation path].
      simpl. rewrite Hc2, Hc1, <- app_assoc. split; [done |].
      right; right. split; [by right; left |]. by repeat split.
    + exists [rm_invocation [path]; mkdir_invocation path].
      simpl. rewrite Hc2, Hc1, <- app_assoc. split; [done |].
      right; right. split; [by right; left |]. by repeat split.
    + destruct (ensureDir_catch_step path σ2) as (r & σ3 & -> & Hc3 & Hr).
      exists [rm_invocation [path]; mkdir_invocation path;
              mkdir_invocation path].
      simpl. rewrite Hc3, Hc2, Hc1, <- !app_assoc. split; [done |].
      right; right. split; [by right; right |]. by repeat split.
  - destruct (ensureDir_catch_step path σ1) as (r & σ2 & -> & Hc2 & Hr).
    exists [rm_invocation [path]; mkdir_invocation path].
    simpl. rewrite Hc2, Hc1, <- app_assoc. split; [done |].
    right; right. split; [by right; left |]. by repeat split.
Qed.

(** X23. [ensureDir] spawns at most three commands, each of them
    [rm -Rf path] or [mkdir -p path]; it spawns the [rm] only after
    [stat] has shown a file that is not a directory, and never for
    ["."] or ["/"]; when it returns [undefined] the last command it
    spawned is the [mkdir]; and it never returns false. *)
Theorem ensureDir_commands `{rt : Runtime} (path : jsstring) (σ : os) :
  ∃ new,
    commands (Commands.ensureDir path σ).2 = commands σ ++ new
    ∧ Forall (λ inv, inv = rm_invocation [path]
                     ∨ inv = mkdir_invocation path) new
    ∧ (rm_invocation [path] ∈ new →
       ∃ st, fs_stat σ path = Some st ∧ isDirectory st = false
             ∧ path ≠ js "." ∧ path ≠ js "/")
    ∧ (List.length new ≤ 3)%nat
    ∧ ((Commands.ensureDir path σ).1 = Fulfilled None →
       last new = Some (mkdir_invocation path))
    ∧ (Commands.ensureDir path σ).1 ≠ Fulfilled (Some false).
Proof.
  assert (rm_invocation [path] ≠ mkdir_invocation path) as Hdiff
    by (intros [= Hcmd _]; vm_compute in Hcmd; discriminate).
  assert (Commands.is_root path = false → path ≠ js "." ∧ path ≠ js "/")
    as Hroot.
  { intros Hr. split; intros ->; vm_compute in Hr; discriminate. }
  destruct (ensureDir_shape path σ) as (new & Hnew & Hshape).
  exists new. split; [exact Hnew |].
  destruct Hshape as [(-> & Hres & st & Hst & Hdir)
                     | [(-> & _ & Hres)
                       | (Hcases & (st & Hst & Hfile) & Hr & Hres & Hlast)]].
  - rewrite Hres. simpl. repeat split; try done.
    + intros Hin. by apply elem_of_nil in Hin.
    + lia.
  - repeat split; try done.
    + apply Forall_cons. split; [by right | apply Forall_nil_2].
    + intros Hin. apply list_elem_of_singleton in Hin. by destruct Hdiff.
    + simpl. lia.
  - split; [| split; [| split; [| split]]].
    + destruct Hcases as [-> | [-> | ->]];
        repeat (apply Forall_cons; split; [by (left + right) |]);
        apply Forall_nil_2.
    + intros _. exists st. split; [done |]. split; [done |]. by apply Hroot.
    + destruct Hcases as [-> | [-> | ->]]; simpl; lia.
    + intros Hnone. specialize (Hlast Hnone).
      by destruct Hcases as [-> | [-> | ->]].
    + apply Hres.
Qed.

(** X24. A removal that fails does not stop [ensureDir]: the error is
    dropped, [mkdir -p] is spawned all the same, and its outcome alone
    is the outcome of the call. *)
Theorem ensureDir_failed_rm_still_mkdir `{rt : Runtime} (path : jsstring)
    (σ : os) (w1 w2 : world) (later : list world) (st : stats)
    (reason : failure) :
  fs_stat σ path = Some st → isDirectory st = false →
  path ≠ js "." → path ≠ js "/" →
  script σ = w1 :: w2 :: later →
  Cmds.exec w1 (js "rm") [js "-Rf"; path] None = Rejected reason →
  commands (Commands.ensureDir path σ).2
  = commands σ ++ [rm_invocation [path]; mkdir_invocation path]
  ∧ (Commands.ensureDir path σ).1
    = match Cmds.exec w2 (js "mkdir") [js "-p"; path] None with
      | Pending => Pending
      | Rejected reason' => Rejected reason'
      | Fulfilled _ => Fulfilled None
      end.
Proof.
  intros Hst Hfile Hdot Hslash Hscript Hrm.
  assert (Commands.is_root path = false) as Hroot.
  { apply not_true_is_false. intros Hr. apply is_root_spec in Hr. tauto. }
  assert (Commands.ensureDir path σ
          = (match Cmds.exec w2 (js "mkdir") [js "-p"; path] None with
             | Pending => Pending
             | Rejected reason' => Rejected reason'
             | Fulfilled _ => Fulfilled None
             end,
             {| script := later;
                commands := commands σ
                              ++ [rm_invocation [path]; mkdir_invocation path];
                fs_stat := fs_stat σ |})) as ->.
  { unfold Commands.ensureDir. rewrite Hst, Hfile.
    unfold Commands.rm. rewrite Hroot.
    unfold Commands.exec. rewrite Hscript, Hrm.
    unfold Commands.ensureDir_catch, Commands.mkdir, Commands.exec. simpl.
    rewrite <- app_assoc.
    by destruct (Cmds.exec w2 (js "mkdir") [js "-p"; path] None). }
  by split.
Qed.

Lemma ensureDir_failed_rm_still_mkdir_witness :
  (Commands.ensureDir (rt := ascii_runtime) (js "out")
     (machine [complains "rm: out: Operation not permitted" 1; prints []]
        (λ _, Some {| isDirectory := false |}))).1
  = match Cmds.exec (rt := ascii_runtime) (prints []) (js "mkdir")
            [js "-p"; js "out"] None with
    | Pending => Pending
    | Rejected reason' => Rejected reason'
    | Fulfilled _ => Fulfilled None
    end.
Proof.
  apply (ensureDir_failed_rm_still_mkdir (rt := ascii_runtime) (js "out")
           _ (complains "rm: out: Operation not permitted" 1) (prints []) []
           {| isDirectory := false |}
           (StderrText (js "rm: out: Operation not permitted")));
    try reflexivity; discriminate.
Defined.

(** ** Fingerprints *)

Lemma substring_prefix (s : jsstring) (len : Z) :
  Utils.substring s 0 len = take (Z.to_nat len) s.
Proof.
  unfold Utils.substring, JS.length.
  set (L := Z.of_nat (List.length s)).
  assert (0 ≤ L)%Z as HL by (unfold L; lia).
  replace (Z.min (Z.max 0 0) L) with 0%Z by lia.
  set (b := Z.min (Z.max len 0) L).
  assert (0 ≤ b)%Z as Hb by (unfold b; lia).
  rewrite Z.min_l, Z.max_r by done.
  change (Z.to_nat 0) with 0%nat. rewrite drop_0, Z.sub_0_r.
  destruct (Z.le_gt_cases len L) as [Hle | Hgt].
  - by replace (Z.to_nat b) with (Z.to_nat len) by (unfold b; lia).
  - rewrite !take_ge; [done | unfold L in *; lia | unfold b, L in *; lia].
Qed.

(** X25. A fingerprint is the beginning of the hash of the text: its
    first [len] characters, the whole hash if it is shorter and
    nothing if [len] is negative; ten characters when [len] is left
    out. So a shorter fingerprint of the same data is the beginning of
    a longer one, and a value and its JSON text have the same
    fingerprint. *)
Theorem fingerprint_is_hash_prefix {V : Type}
    (JSON_stringify : V → option jsstring)
    (hmac_sha256_hex : jsstring → jsstring)
    (data : jsstring + V) (str : jsstring) (len : option Z) :
  match data with inl s => Some s | inr v => JSON_stringify v end = Some str →
  Utils.fingerprint JSON_stringify hmac_sha256_hex data len
  = Returns (take (Z.to_nat (default 10%Z len)) (hmac_sha256_hex str))
  ∧ Utils.fingerprint JSON_stringify hmac_sha256_hex data len
    = Utils.fingerprint JSON_stringify hmac_sha256_hex (inl str) len
  ∧ ∀ len' : Z,
      (default 10 len ≤ len')%Z →
      ∃ short long,
        Utils.fingerprint JSON_stringify hmac_sha256_hex data len
          = Returns short
        ∧ Utils.fingerprint JSON_stringify hmac_sha256_hex data (Some len')
          = Returns long
        ∧ short `prefix_of` long.
Proof.
  intros Hstr. unfold Utils.fingerprint. rewrite Hstr.
  rewrite !substring_prefix.
  split; [done |]. split; [done |].
  intros len' Hle. eexists _, _. split; [reflexivity |].
  split; [reflexivity |]. simpl. rewrite substring_prefix.
  set (n := Z.to_nat (default Utils.DefaultFingerprintLength len)).
  set (n' := Z.to_nat len').
  assert (n ≤ n')%nat as Hn by (unfold Utils.DefaultFingerprintLength in *; lia).
  exists (take (n' - n) (drop n (hmac_sha256_hex str))).
  rewrite take_take_drop. f_equal. unfold n'. lia.
Qed.

Lemma fingerprint_is_hash_prefix_witness :
  Utils.fingerprint (V := bool)
    (λ b : bool, Some (if b then js "true" else js "false"))
    (λ key, key ++ js "0123456789abcdef") (inr true) (Some 6%Z)
  = Returns (take (Z.to_nat (default 10%Z (Some 6%Z)))
               (js "true" ++ js "0123456789abcdef")).
Proof.
  apply (fingerprint_is_hash_prefix (V := bool)
           (λ b : bool, Some (if b then js "true" else js "false"))
           (λ key, key ++ js "0123456789abcdef")
           (inr true) (js "true") (Some 6%Z)).
  reflexivity.
Defined.
